(** * shamirJS: Shamir secret sharing over GF(2^8)

    A shallow embedding of [shamir.js] and the properties of its field
    tables, codecs, share generator and Lagrange reconstructor. *)

From Stdlib Require Import ZArith Lia Ascii String.
From Stdlib.Strings Require Import Byte.
From HB Require Import structures.
From mathcomp Require Import ssreflect ssrfun ssrbool eqtype ssrnat div seq choice.
From mathcomp Require Import fintype bigop ssralg poly.

Set Implicit Arguments.
Unset Strict Implicit.
Unset Printing Implicit Defensive.

(** ** JavaScript values used by the module *)

(** A JS string, as its sequence of characters. *)
Notation jsstring := (seq ascii) (only parsing).

Definition str (s : string) : jsstring := list_ascii_of_string s.
Arguments str s%_string.

Lemma ascii_eqP : Equality.axiom Ascii.eqb.
Proof. by move=> a b; apply: (iffP idP) => /Ascii.eqb_eq. Qed.

HB.instance Definition _ := hasDecEq.Build ascii ascii_eqP.

Lemma Z_eqP : Equality.axiom Z.eqb.
Proof. by move=> a b; apply: (iffP idP) => /Z.eqb_eq. Qed.

HB.instance Definition _ := hasDecEq.Build Z Z_eqP.

(** A JS number that is an integer, or [None] for the values [NaN] and
    [undefined], which the module's arithmetic treats alike: both are falsy,
    both turn [+], [-] and [%] into [NaN], both index an array to [undefined],
    and both are read as [0] by [^]. *)
Definition num := option Z.

(** The thrown [Error]s, one constructor per [throw] site.  The two
    share-count errors carry the [neededBits] printed in their message. *)
Inductive error :=
  | InvalidHexCharacter
  | InvalidBinaryCharacter
  | PaddingTooLarge
  | InvalidShareId
  | InvalidShareData
  | InvalidArrayLength
  | SecretNotString
  | BadShareCount
  | ShareCountTooLarge (totalShares neededBits : Z)
  | BadThreshold
  | ThresholdTooLarge (requiredShares neededBits : Z)
  | ThresholdExceedsTotal (requiredShares totalShares : Z)
  | BadPadLength
  | BadGeneratedShareId.

(** Outcome of a call: a value, a thrown error, or [Diverge] when the
    retry budget of the random sampling loop is used up. *)
Inductive result (A : Type) :=
  | Ok (a : A)
  | Throw (e : error)
  | Diverge.

Arguments Ok {A} a.
Arguments Throw {A} e.
Arguments Diverge {A}.

Definition bind {A B} (r : result A) (k : A -> result B) : result B :=
  match r with
  | Ok a => k a
  | Throw e => Throw e
  | Diverge => Diverge
  end.

Notation "'let*' x ':=' r 'in' k" := (bind r (fun x => k))
  (at level 200, x pattern, r at level 100, k at level 200, right associativity).

Definition is_ok {A} (r : result A) : bool := if r is Ok _ then true else false.
Definition is_throw {A} (r : result A) : bool := if r is Throw _ then true else false.

(** *** Number primitives *)

Definition jsAdd (a b : num) : num :=
  match a, b with Some x, Some y => Some (x + y)%Z | _, _ => None end.

Definition jsSub (a b : num) : num :=
  match a, b with Some x, Some y => Some (x - y)%Z | _, _ => None end.

(** [a % m]: the remainder takes the sign of the dividend. *)
Definition jsRem (a : num) (m : Z) : num :=
  if a is Some x then Some (Z.rem x m) else None.

(** ToInt32, applied by the bitwise operators to their operands. *)
Definition toInt32 (a : num) : Z :=
  if a is Some x then ((x + 2 ^ 31) mod 2 ^ 32 - 2 ^ 31)%Z else 0%Z.

Definition jsXor (a b : num) : Z := Z.lxor (toInt32 a) (toInt32 b).

(** [arr[i]] on an array with holes; an index that is negative, [NaN] or
    past the end reads [undefined]. *)
Definition arrGet (arr : seq num) (i : num) : num :=
  match i with
  | Some z => if (0 <=? z)%Z then nth None arr (Z.to_nat z) else None
  | None => None
  end.

Arguments arrGet : simpl never.

(** [arr[i] = v], which extends the array with holes when needed. *)
Definition arrSet (arr : seq num) (i : Z) (v : Z) : seq num :=
  set_nth None arr (Z.to_nat i) (Some v).

(** ** Field tables (shamir.js, lines 3-21) *)

Definition fieldBits : Z := 8.
Definition maxShares : Z := 255.

Record tables := Tables {
  tblX : Z;
  calculatedLogarithms_of : seq num;
  calculatedExponents_of : seq num
}.

(** One iteration of the table loop, at index [i]. *)
Definition tableStep (t : tables) (i : nat) : tables :=
  let x := tblX t in
  let exps := arrSet (calculatedExponents_of t) (Z.of_nat i) x in
  let logs := arrSet (calculatedLogarithms_of t) x (Z.of_nat i) in
  let x1 := Z.shiftl x 1 in
  let x2 := if (Z.land x1 256 =? 0)%Z then x1 else Z.lxor x1 285 in
  Tables x2 logs exps.

(** The loop run for [n] iterations; the module runs it for 256. *)
Definition buildTables (n : nat) : tables :=
  foldl tableStep (Tables 1 [::] [::]) (iota 0 n).

Definition calculatedLogarithms : seq num :=
  Eval vm_compute in calculatedLogarithms_of (buildTables 256).

Definition calculatedExponents : seq num :=
  Eval vm_compute in calculatedExponents_of (buildTables 256).

(** ** Polynomial evaluation and interpolation (shamir.js, [helpers.crypto]) *)

Section Crypto.

(** The two tables are parameters here, so that the functions can also be
    read over tables built by a different number of iterations. *)
Variables (logs exps : seq num).

(** [fx !== 0] *)
Definition notZero (a : num) : bool :=
  if a is Some z then ~~ (z =? 0)%Z else true.

(** Truthiness of a number or [undefined]. *)
Definition truthy (a : num) : bool :=
  if a is Some z then ~~ (z =? 0)%Z else false.

(** Body of the loop of [calculateFofX], for the coefficient [c]. *)
Definition fofxStep (logX : num) (c : num) (fx : num) : num :=
  if notZero fx
  then Some (jsXor (arrGet exps (jsRem (jsAdd logX (arrGet logs fx)) maxShares)) c)
  else c.

(** The loop runs from the last coefficient down to the first. *)
Definition calculateFofX_with (x : num) (coefficients : seq num) : num :=
  let logX := arrGet logs x in
  foldr (fofxStep logX) (Some 0%Z) coefficients.

(** Body of the inner loop of [lagrange], at index [j]. *)
Definition lagrangeStep (x : seq num) (i : nat) (product : num) (j : nat) : num :=
  if i != j
  then jsRem
         (jsAdd
            (jsSub
               (jsAdd product
                  (arrGet logs (Some (jsXor (Some 0%Z) (nth None x j)))))
               (arrGet logs (Some (jsXor (nth None x i) (nth None x j)))))
            (Some maxShares))
         maxShares
  else product.

(** Body of the outer loop of [lagrange], at index [i]. *)
Definition lagrangeTerm (x y : seq num) (sum : Z) (i : nat) : Z :=
  if truthy (nth None y i)
  then
    let product :=
      foldl (lagrangeStep x i) (arrGet logs (nth None y i)) (iota 0 (size x)) in
    jsXor (Some sum) (arrGet exps product)
  else sum.

Definition lagrange_with (x y : seq num) : Z :=
  foldl (lagrangeTerm x y) 0%Z (iota 0 (size x)).

(** Multiplication as the tables define it: [0] when an operand is [0],
    else [exp[(log[a] + log[b]) mod 255]]. *)
Definition mul_with (a b : Z) : num :=
  if (a =? 0)%Z || (b =? 0)%Z then Some 0%Z
  else arrGet exps
         (if jsAdd (arrGet logs (Some a)) (arrGet logs (Some b)) is Some s
          then Some (s mod 255)%Z else None).

End Crypto.

Definition calculateFofX := calculateFofX_with calculatedLogarithms calculatedExponents.
Definition lagrange := lagrange_with calculatedLogarithms calculatedExponents.
Definition mul := mul_with calculatedLogarithms calculatedExponents.

(** *** Schoolbook multiplication of binary polynomials modulo 0x11D *)

(** Carry-less product of two bytes: the XOR of the copies of [a] shifted
    by the positions of the bits set in [b]. *)
Definition clmul (a b : Z) : Z :=
  foldl (fun acc i => if Z.testbit b (Z.of_nat i)
                      then Z.lxor acc (Z.shiftl a (Z.of_nat i)) else acc)
        0%Z (iota 0 8).

(** One step of the long division by x^8+x^4+x^3+x^2+1: clear the bit of
    degree [8 + k]. *)
Definition reduceStep (k : nat) (v : Z) : Z :=
  if Z.testbit v (Z.of_nat (8 + k))
  then Z.lxor v (Z.shiftl 285 (Z.of_nat k)) else v.

(** Remainder of a polynomial of degree at most 14. *)
Definition polyMod (v : Z) : Z := foldr reduceStep v (iota 0 7).

Definition schoolbookMul (a b : Z) : Z := polyMod (clmul a b).

(** Value at [x] of the polynomial over GF(2^8) with the given coefficients,
    constant term first: Horner's rule on the schoolbook product. *)
Definition evalPoly (coefficients : seq Z) (x : Z) : Z :=
  foldr (fun c acc => Z.lxor (schoolbookMul acc x) c) 0%Z coefficients.

(** ** String primitives *)

Definition asciiZ (c : ascii) : Z := Z.of_N (N_of_ascii c).

Definition inRange (lo hi c : ascii) : bool :=
  (asciiZ lo <=? asciiZ c)%Z && (asciiZ c <=? asciiZ hi)%Z.

(** Value of a digit character, for radices up to 36. *)
Definition digitValue (c : ascii) : num :=
  if inRange "0" "9" c then Some (asciiZ c - 48)%Z
  else if inRange "a" "z" c then Some (asciiZ c - 87)%Z
  else if inRange "A" "Z" c then Some (asciiZ c - 55)%Z
  else None.

(** The value of a hexadecimal digit. *)
Definition hexValue (c : ascii) : Z := odflt 0%Z (digitValue c).

Definition digitChar (d : Z) : ascii :=
  nth "?"%char (str "0123456789abcdefghijklmnopqrstuvwxyz") (Z.to_nat d).

Fixpoint parseDigits (radix : Z) (acc : num) (s : jsstring) : num :=
  match s with
  | [::] => acc
  | c :: s' =>
      match digitValue c with
      | Some d =>
          if (d <? radix)%Z
          then parseDigits radix (Some (radix * odflt 0%Z acc + d)%Z) s'
          else acc
      | None => acc
      end
  end.

(** [parseInt(s, radix)]: the value of the longest prefix of [s] made of
    digits of the radix, [NaN] when that prefix is empty.  The strings the
    module parses hold no white space, sign or [0x] prefix, which [parseInt]
    would skip; they are not modelled. *)
Definition parseInt (s : jsstring) (radix : Z) : num := parseDigits radix None s.

Fixpoint digitsOf (fuel : nat) (radix z : Z) (acc : jsstring) : jsstring :=
  if fuel is f.+1 then
    let acc' := digitChar (z mod radix) :: acc in
    if (z / radix =? 0)%Z then acc' else digitsOf f radix (z / radix)%Z acc'
  else acc.

(** [n.toString(radix)] for an integer or [NaN]. *)
Definition toString (a : num) (radix : Z) : jsstring :=
  match a with
  | None => str "NaN"
  | Some z =>
      if (z <? 0)%Z
      then "-"%char :: digitsOf (Z.to_nat (Z.log2 (- z))).+1 radix (- z)%Z [::]
      else digitsOf (Z.to_nat (Z.log2 z)).+1 radix z [::]
  end.

Definition jsLength (s : jsstring) : Z := Z.of_nat (size s).

(** [s.slice(b, e)]; [e = None] when the second argument is omitted. *)
Definition jsSlice (s : jsstring) (b : Z) (e : option Z) : jsstring :=
  let len := jsLength s in
  let clamp k := if (k <? 0)%Z then Z.max (len + k) 0 else Z.min k len in
  let from := clamp b in
  let to := if e is Some k then clamp k else len in
  take (Z.to_nat (to - from)) (drop (Z.to_nat from) s).

(** [s.indexOf(c)] for a one-character needle. *)
Definition indexOf (s : jsstring) (c : ascii) : Z :=
  if c \in s then Z.of_nat (index c s) else (-1)%Z.

(** ** String helpers (shamir.js, [helpers.strings]) *)

(** [new Array(1024).join('0')]: 1023 zeros. *)
Definition zeroPadding : jsstring := nseq 1023 "0"%char.

Arguments zeroPadding : simpl never.

Definition padLeft (stringToPad : jsstring) (multipleOfBits : Z) : result jsstring :=
  if (multipleOfBits =? 0)%Z || (multipleOfBits =? 1)%Z then Ok stringToPad
  else if (1024 <? multipleOfBits)%Z then Throw PaddingTooLarge
  else
    let bitsToPad : num :=
      if stringToPad is [::] then None
      else Some (Z.rem (jsLength stringToPad) multipleOfBits) in
    if truthy bitsToPad
    then Ok (jsSlice (zeroPadding ++ stringToPad)
               (- (multipleOfBits - odflt 0%Z bitsToPad + jsLength stringToPad))%Z None)
    else Ok stringToPad.

(** The loop runs from the last character down to the first. *)
Definition hexadecimalToBinary (hexString : jsstring) : result jsstring :=
  foldr (fun c rest =>
           let* binaryString := rest in
           match parseInt [:: c] 16 with
           | None => Throw InvalidHexCharacter
           | Some n =>
               let* nibble := padLeft (toString (Some n) 2) 4 in
               Ok (nibble ++ binaryString)
           end)
        (Ok [::]) hexString.

(** The [for] loop of [binaryToHexadecimal], from index [i] down; it runs
    at most [fuel] times, and [size binaryString] times are enough. *)
Fixpoint binaryToHexadecimalLoop (fuel : nat) (binaryString : jsstring) (i : Z)
    (hexadecimalString : jsstring) : result jsstring :=
  if fuel is f.+1 then
    if (4 <=? i)%Z then
      match parseInt (jsSlice binaryString (i - 4) (Some i)) 2 with
      | None => Throw InvalidBinaryCharacter
      | Some n =>
          binaryToHexadecimalLoop f binaryString (i - 4)
            (toString (Some n) 16 ++ hexadecimalString)
      end
    else Ok hexadecimalString
  else Ok hexadecimalString.

Definition binaryToHexadecimal (binaryString : jsstring) : result jsstring :=
  let* binaryString := padLeft binaryString 4 in
  binaryToHexadecimalLoop (size binaryString) binaryString (jsLength binaryString) [::].

(** The [for] loop of [splitNumStringToIntArray], from index [i] down,
    followed by the final [push]. *)
Fixpoint splitLoop (fuel : nat) (stringToSplit : jsstring) (i : Z)
    (parts : seq num) : seq num :=
  if fuel is f.+1 then
    if (fieldBits <? i)%Z
    then splitLoop f stringToSplit (i - fieldBits)
           (rcons parts (parseInt (jsSlice stringToSplit (i - fieldBits) (Some i)) 2))
    else rcons parts (parseInt (jsSlice stringToSplit 0 (Some i)) 2)
  else rcons parts (parseInt (jsSlice stringToSplit 0 (Some i)) 2).

(** [padLength = None] when the argument is omitted. *)
Definition splitNumStringToIntArray (stringToSplit : jsstring) (padLength : num)
    : result (seq num) :=
  let* stringToSplit :=
    if truthy padLength then padLeft stringToSplit (odflt 0%Z padLength)
    else Ok stringToSplit in
  Ok (splitLoop (size stringToSplit) stringToSplit (jsLength stringToSplit) [::]).

(** The chunks put back together: the 8-bit zero-padded binary encoding of
    each chunk, the first chunk last. *)
Definition joinChunks (parts : seq num) : result jsstring :=
  foldl (fun joined part =>
           let* joined := joined in
           let* bits := padLeft (toString part 2) fieldBits in
           Ok (bits ++ joined))
        (Ok [::]) parts.

(** ** Share operations (shamir.js, [helpers.shareOperations]) *)

Definition isHexChar (c : ascii) : bool :=
  [|| inRange "a" "f" c, inRange "A" "F" c | inRange "0" "9" c].

(** [/^([a-fA-F\d]{2})([a-fA-F\d]+)$/.exec(share)]: the two groups. *)
Definition shareRegexExec (share : jsstring) : option (jsstring * jsstring) :=
  if all isHexChar share && (2 < size share)%N
  then Some (take 2 share, drop 2 share) else None.

(** The object [{id, data}] returned by [extractShareComponents]. *)
Module Share.
Record t := Make { id : Z; data : jsstring }.
End Share.

Definition extractShareComponents (share : jsstring) : result Share.t :=
  let shareComponents := shareRegexExec share in
  let id : num :=
    if shareComponents is Some (g1, _) then parseInt g1 16 else None in
  match id with
  | Some idz =>
      if (idz <? 1)%Z || (maxShares <? idz)%Z then Throw InvalidShareId
      else
        match shareComponents with
        | Some (_, (_ :: _) as g2) => Ok (Share.Make idz g2)
        | _ => Throw InvalidShareData
        end
  | None => Throw InvalidShareId
  end.

(** *** The entropy source

    [crypto.randomBytes] reads the next bytes of an endless stream; the
    position in the stream is the state threaded through the generator. *)
Definition entropy := nat -> byte.

Definition byteZ (b : byte) : Z := Z.of_N (Byte.to_N b).

Definition randomBytes (rnd : entropy) (pos : nat) (n : nat) : seq byte * nat :=
  ([seq rnd k | k <- iota pos n], (pos + n)%N).

(** [buffer.toString('hex')] *)
Definition bufferToHex (buf : seq byte) : jsstring :=
  flatten [seq [:: digitChar (byteZ b / 16); digitChar (byteZ b mod 16)] | b <- buf].

(** The inner [while] of [getRandomBinaryString]; every round appends four
    characters, so [fuel = len + bits] rounds are enough for it to stop. *)
Fixpoint randomBitsLoop (fuel : nat) (byteString : jsstring) (len bits : Z)
    (i : nat) (string : jsstring) : result jsstring :=
  if fuel is f.+1 then
    if (Z.of_nat i <? len)%Z || (jsLength string <? bits)%Z then
      let parsedInt :=
        if (i < size byteString)%N
        then omap Z.abs (parseInt [:: nth "0"%char byteString i] 16) else None in
      let* nibble := padLeft (toString parsedInt 2) 4 in
      randomBitsLoop f byteString len bits i.+1 (string ++ nibble)
    else Ok string
  else Ok string.

(** One round of the outer [while]: the string read from fresh random
    bytes, and the new position in the stream. *)
Definition randomBitsAttempt (bits : Z) (rnd : entropy) (pos : nat)
    : result (jsstring * nat) :=
  let bytes := ((bits + 7) / 8)%Z in
  let (buf, pos') := randomBytes rnd pos (Z.to_nat bytes) in
  let byteString := bufferToHex buf in
  let len := if byteString is [::] then 0%Z else (jsLength byteString - 1)%Z in
  let* string :=
    randomBitsLoop (Z.to_nat len + Z.to_nat bits) byteString len bits 0 [::] in
  Ok (jsSlice string (- bits) None, pos').

(** The outer [while] retries as long as the string is all zeros; [fuel]
    bounds the number of rounds observed, and [Diverge] is the outcome when
    none of them produced a string. *)
Fixpoint getRandomBinaryString (fuel : nat) (bits : Z) (rnd : entropy) (pos : nat)
    : result (jsstring * nat) :=
  if fuel is f.+1 then
    let* (string, pos') := randomBitsAttempt bits rnd pos in
    if count (pred1 "0"%char) string == size string
    then getRandomBinaryString f bits rnd pos'
    else Ok (string, pos')
  else Diverge.

(** The first loop of [calculateRandomizedShares]: [n] random coefficients
    appended to [coefficients]. *)
Fixpoint randomCoefficients (fuel : nat) (n : nat) (rnd : entropy) (pos : nat)
    (coefficients : seq num) : result (seq num * nat) :=
  if n is n'.+1 then
    let* (bits, pos') := getRandomBinaryString fuel fieldBits rnd pos in
    randomCoefficients fuel n' rnd pos' (rcons coefficients (parseInt bits 2))
  else Ok (coefficients, pos).

Record point := Point { px : Z; py : num }.

Definition calculateRandomizedShares (fuel : nat) (secret : num)
    (totalShares requiredShares : Z) (rnd : entropy) (pos : nat)
    : result (seq point * nat) :=
  let* (coefficients, pos') :=
    randomCoefficients fuel (Z.to_nat (requiredShares - 1)) rnd pos [:: secret] in
  Ok ([seq Point (Z.of_nat i) (calculateFofX (Some (Z.of_nat i)) coefficients)
      | i <- iota 1 (Z.to_nat totalShares)], pos').

(** *** Well-formed share strings

    The format of a share: two hexadecimal digits, the id, followed by at
    least one more hexadecimal digit; the id is in [1, 255]. *)
Definition shareFormat (share : jsstring) : bool :=
  (2 < size share)%N && all isHexChar share.

Definition shareIdOf (share : jsstring) : Z :=
  (16 * hexValue (nth "0"%char share 0) + hexValue (nth "0"%char share 1))%Z.

Definition wellFormedShare (share : jsstring) : bool :=
  shareFormat share && (1 <=? shareIdOf share)%Z && (shareIdOf share <=? 255)%Z.

(** The sublist that keeps only the first share bearing each id. *)
Fixpoint firstOfEachId (seen : seq Z) (shares : seq jsstring) : seq jsstring :=
  match shares with
  | [::] => [::]
  | share :: shares' =>
      if shareIdOf share \in seen then firstOfEachId seen shares'
      else share :: firstOfEachId (rcons seen (shareIdOf share)) shares'
  end.

(** ** The public functions (shamir.js, [Shamir]) *)

(** A JS number as the argument checks see it: [NonInteger] stands for the
    finite fractions and the infinities, which are truthy and fail
    [v % 1 === 0]; [NaN] is falsy and fails it too. *)
Inductive jsnumber := NaN | Int (z : Z) | NonInteger.

(** An argument value; [JOther] stands for objects, arrays and functions. *)
Inductive jsvalue :=
  | JUndefined
  | JNull
  | JBool (b : bool)
  | JNumber (n : jsnumber)
  | JString (s : jsstring)
  | JOther.

(** Truthiness, as [padLength || 128] tests it. *)
Definition jsTruthy (v : jsvalue) : bool :=
  match v with
  | JUndefined | JNull => false
  | JBool b => b
  | JNumber NaN => false
  | JNumber (Int z) => ~~ (z =? 0)%Z
  | JNumber NonInteger => true
  | JString s => ~~ nilp s
  | JOther => true
  end.

(** [typeof v !== 'number' || v % 1 !== 0 || v < lo]: the integer when the
    test is false. *)
Definition integerAtLeast (lo : Z) (v : jsvalue) : option Z :=
  if v is JNumber (Int z) then if (z <? lo)%Z then None else Some z else None.

(** [new Array(v)] throws a [RangeError] when [v] is a number that is not
    an array length. *)
Definition newArrayThrows (v : jsvalue) : bool :=
  match v with
  | JNumber (Int z) => (z <? 0)%Z || (2 ^ 32 <=? z)%Z
  | JNumber _ => true
  | _ => false
  end.

(** [Math.ceil(Math.log(n + 1) / Math.LN2)], read over the integers. *)
Definition neededBits (n : Z) : Z := Z.log2_up (n + 1).

(** The inner loop over [j] of [generateShares], on the arrays [x] and [y]
    with their holes. *)
Fixpoint collectSubShares (subShares : seq point) (x y : seq (option jsstring))
    : result (seq (option jsstring) * seq (option jsstring)) :=
  match subShares, x, y with
  | sh :: subShares', xj :: x', yj :: y' =>
      let xj' := if xj is Some (_ :: _) then xj
                 else Some (toString (Some (px sh)) 16) in
      let* bits := padLeft (toString (py sh) 2) fieldBits in
      let yj' := Some (bits ++ odflt [::] yj) in
      let* (xs, ys) := collectSubShares subShares' x' y' in
      Ok (xj' :: xs, yj' :: ys)
  | _, _, _ => Ok (x, y)
  end.

(** The loop over the chunks of the secret. *)
Fixpoint shareChunks (fuel : nat) (secret : seq num) (totalShares requiredShares : Z)
    (rnd : entropy) (pos : nat) (x y : seq (option jsstring))
    : result (seq (option jsstring) * seq (option jsstring)) :=
  match secret with
  | [::] => Ok (x, y)
  | chunk :: secret' =>
      let* (subShares, pos') :=
        calculateRandomizedShares fuel chunk totalShares requiredShares rnd pos in
      let* (x', y') := collectSubShares subShares x y in
      shareChunks fuel secret' totalShares requiredShares rnd pos' x' y'
  end.

(** The final loop, which builds the share strings. *)
Fixpoint buildShareStrings (x y : seq (option jsstring)) : result (seq jsstring) :=
  match x, y with
  | shareId :: x', yi :: y' =>
      let integerShareId := if shareId is Some s then parseInt s 16 else None in
      match integerShareId with
      | Some n =>
          if (n <? 1)%Z || (maxShares <? n)%Z then Throw BadGeneratedShareId
          else
            let* shareId := padLeft (odflt [::] shareId) 2 in
            let* payload := binaryToHexadecimal (odflt [::] yi) in
            let* rest := buildShareStrings x' y' in
            Ok ((shareId ++ payload) :: rest)
      | None => Throw BadGeneratedShareId
      end
  | _, _ => Ok [::]
  end.

Definition generateShares (fuel : nat) (rnd : entropy)
    (secret totalShares requiredShares padLength : jsvalue)
    : result (seq jsstring) :=
  if newArrayThrows totalShares then Throw InvalidArrayLength else
  let padLength := if jsTruthy padLength then padLength else JNumber (Int 128) in
  match secret with
  | JString secret =>
    match integerAtLeast 2 totalShares with
    | None => Throw BadShareCount
    | Some n =>
      if (maxShares <? n)%Z then Throw (ShareCountTooLarge n (neededBits n)) else
      match integerAtLeast 2 requiredShares with
      | None => Throw BadThreshold
      | Some t =>
        if (maxShares <? t)%Z then Throw (ThresholdTooLarge t (neededBits t)) else
        if (n <? t)%Z then Throw (ThresholdExceedsTotal t n) else
        match integerAtLeast 0 padLength with
        | None => Throw BadPadLength
        | Some pad =>
          if (1024 <? pad)%Z then Throw BadPadLength else
          let* bits := hexadecimalToBinary secret in
          let* chunks := splitNumStringToIntArray ("1"%char :: bits) (Some pad) in
          let holes := nseq (Z.to_nat n) None in
          let* (x, y) := shareChunks fuel chunks n t rnd 0 holes holes in
          buildShareStrings x y
        end
      end
    end
  | _ => Throw SecretNotString
  end.

(** The rotation step of [deriveSecret]: [y[j][k] = splitShare[j]] for
    every [j], from index [j] on. *)
Fixpoint storeColumn (y : seq (seq num)) (k : nat) (splitShare : seq num)
    : seq (seq num) :=
  match splitShare with
  | [::] => y
  | v :: splitShare' =>
      let yj := if y is yj :: _ then yj else [::] in
      set_nth None yj k v :: storeColumn (behead y) k splitShare'
  end.

(** One round of the first loop of [deriveSecret]. *)
Definition deriveStep (xy : seq Z * seq (seq num)) (share : jsstring)
    : result (seq Z * seq (seq num)) :=
  let (x, y) := xy in
  let* share := extractShareComponents share in
  if Share.id share \in x then Ok (x, y)
  else
    let x := rcons x (Share.id share) in
    let* bits := hexadecimalToBinary (Share.data share) in
    let* splitShare := splitNumStringToIntArray bits None in
    Ok (x, storeColumn y (size x).-1 splitShare).

Fixpoint deriveLoop (xy : seq Z * seq (seq num)) (shares : seq jsstring)
    : result (seq Z * seq (seq num)) :=
  match shares with
  | [::] => Ok xy
  | share :: shares' => let* xy' := deriveStep xy share in deriveLoop xy' shares'
  end.

(** The second loop of [deriveSecret]: each column, interpolated, is put
    in front of the result. *)
Fixpoint interpolateColumns (x : seq Z) (y : seq (seq num)) (result0 : jsstring)
    : result jsstring :=
  match y with
  | [::] => Ok result0
  | yi :: y' =>
      let* bits :=
        padLeft (toString (Some (lagrange [seq Some v | v <- x] yi)) 2) fieldBits in
      interpolateColumns x y' (bits ++ result0)
  end.

Definition deriveSecret (shares : seq jsstring) : result jsstring :=
  let* (x, y) := deriveLoop ([::], [::]) shares in
  let* result0 := interpolateColumns x y [::] in
  binaryToHexadecimal (jsSlice result0 (indexOf result0 "1"%char + 1) None).

(** * Properties *)

(** ** Bytes and exhaustive checks *)

Definition isByte (z : Z) : bool := (0 <=? z)%Z && (z <? 256)%Z.

Lemma isByteP z : reflect (0 <= z < 256)%Z (isByte z).
Proof.
rewrite /isByte; apply: (iffP andP) => [[/Z.leb_le H1 /Z.ltb_lt H2]|[H1 H2]] //.
by split; [apply/Z.leb_le | apply/Z.ltb_lt].
Qed.

Definition bytes : seq Z := [seq Z.of_nat i | i <- iota 0 256].

Lemma all_bytesP (P : Z -> bool) : all P bytes -> forall z, isByte z -> P z.
Proof.
move=> /allP H z /isByteP Hz; apply: H.
have -> : z = Z.of_nat (Z.to_nat z) by lia.
by apply: map_f; rewrite mem_iota /= add0n; apply/ltP; lia.
Qed.

Lemma all_bytes2P (P : Z -> Z -> bool) :
  all (fun a => all (P a) bytes) bytes ->
  forall a b, isByte a -> isByte b -> P a b.
Proof.
move=> H a b Ha Hb.
by apply: (all_bytesP (P := P a)) Hb; apply: (all_bytesP (P := fun a => all (P a) bytes)) Ha.
Qed.

Lemma toInt32_small z : (- 2 ^ 31 <= z < 2 ^ 31)%Z -> toInt32 (Some z) = z.
Proof. by move=> H; rewrite /toInt32 Z.mod_small; lia. Qed.

Lemma toInt32_byte z : isByte z -> toInt32 (Some z) = z.
Proof. by move/isByteP => H; apply: toInt32_small; lia. Qed.

Lemma jsXor_byte a b : isByte a -> isByte b -> jsXor (Some a) (Some b) = Z.lxor a b.
Proof. by move=> Ha Hb; rewrite /jsXor !toInt32_byte. Qed.

Lemma lxor_byte a b : isByte a -> isByte b -> isByte (Z.lxor a b).
Proof. by apply: (all_bytes2P (P := fun a b => isByte (Z.lxor a b))); vm_compute. Qed.

(** XOR equations up to associativity and commutativity, bit by bit. *)
Ltac xor_ac :=
  let n := fresh "n" in
  apply: Z.bits_inj' => n _; rewrite ?Z.lxor_spec ?Z.bits_0;
  repeat match goal with |- context [Z.testbit ?a n] =>
    case: (Z.testbit a n) end; reflexivity.

(** ** The tables *)

Lemma calculatedLogarithmsE :
  calculatedLogarithms = calculatedLogarithms_of (buildTables 256).
Proof. by vm_compute. Qed.

Lemma calculatedExponentsE :
  calculatedExponents = calculatedExponents_of (buildTables 256).
Proof. by vm_compute. Qed.

Definition glog (a : Z) : Z := odflt 0%Z (arrGet calculatedLogarithms (Some a)).
Definition gexp (i : Z) : Z := odflt 0%Z (arrGet calculatedExponents (Some i)).

Arguments glog : simpl never.
Arguments gexp : simpl never.

Lemma glogP a : isByte a -> a <> 0%Z ->
  [/\ arrGet calculatedLogarithms (Some a) = Some (glog a),
      (0 <= glog a <= 255)%Z & gexp (glog a mod 255) = a].
Proof.
move=> Ha /Z.eqb_neq Hn.
have: (a =? 0)%Z || [&& arrGet calculatedLogarithms (Some a) == Some (glog a),
        (0 <=? glog a)%Z, (glog a <=? 255)%Z & (gexp (glog a mod 255) =? a)%Z].
  by apply: (all_bytesP (P := fun a => (a =? 0)%Z || [&& arrGet calculatedLogarithms (Some a) == Some (glog a),
        (0 <=? glog a)%Z, (glog a <=? 255)%Z & (gexp (glog a mod 255) =? a)%Z])) Ha; vm_compute.
rewrite Hn /= => /and4P [/eqP -> /Z.leb_le ? /Z.leb_le ? /Z.eqb_eq ?]; split=> //; lia.
Qed.

Lemma gexpP i : (0 <= i < 255)%Z ->
  [/\ arrGet calculatedExponents (Some i) = Some (gexp i),
      isByte (gexp i), gexp i <> 0%Z & (glog (gexp i) mod 255 = i)%Z].
Proof.
move=> Hi.
have Hb : isByte i by apply/isByteP; lia.
have: (i =? 255)%Z || [&& arrGet calculatedExponents (Some i) == Some (gexp i),
        isByte (gexp i), ~~ (gexp i =? 0)%Z & (glog (gexp i) mod 255 =? i)%Z].
  by apply: (all_bytesP (P := fun i => (i =? 255)%Z || [&& arrGet calculatedExponents (Some i) == Some (gexp i),
        isByte (gexp i), ~~ (gexp i =? 0)%Z & (glog (gexp i) mod 255 =? i)%Z])) Hb; vm_compute.
have -> /= : (i =? 255)%Z = false by apply/Z.eqb_neq; lia.
by move=> /and4P [/eqP -> ? /negP H /Z.eqb_eq ?]; split=> // /Z.eqb_eq.
Qed.

(** ** Multiplication from the tables *)

Lemma mul_schoolbook a b : isByte a -> isByte b -> mul a b = Some (schoolbookMul a b).
Proof.
move=> Ha Hb; apply/eqP.
have H : all (fun a => all (fun b => mul a b == Some (schoolbookMul a b)) bytes) bytes.
  by vm_compute.
exact: (all_bytes2P H Ha Hb).
Qed.

Lemma mulC a b : mul a b = mul b a.
Proof.
rewrite /mul /mul_with orbC; case: ifP => // _.
case: (arrGet _ (Some a)) => [la|]; case: (arrGet _ (Some b)) => [lb|] //=.
by rewrite Z.add_comm.
Qed.

Lemma clmul_step_lxor a b c i acc1 acc2 :
  (if Z.testbit (Z.lxor b c) i then Z.lxor (Z.lxor acc1 acc2) (Z.shiftl a i)
   else Z.lxor acc1 acc2) =
  Z.lxor (if Z.testbit b i then Z.lxor acc1 (Z.shiftl a i) else acc1)
         (if Z.testbit c i then Z.lxor acc2 (Z.shiftl a i) else acc2).
Proof.
rewrite Z.lxor_spec.
by case: (Z.testbit b i); case: (Z.testbit c i) => /=; xor_ac.
Qed.

Lemma clmul_lxor a b c : clmul a (Z.lxor b c) = Z.lxor (clmul a b) (clmul a c).
Proof.
rewrite /clmul -[X in foldl _ X _ = _]/(Z.lxor 0 0).
move: 0%Z {2 4}0%Z; elim: (iota 0 8) => [|i l IH] acc1 acc2 //=.
by rewrite clmul_step_lxor IH.
Qed.

Lemma reduceStep_lxor k u v :
  reduceStep k (Z.lxor u v) = Z.lxor (reduceStep k u) (reduceStep k v).
Proof.
rewrite /reduceStep Z.lxor_spec.
by case: (Z.testbit u _); case: (Z.testbit v _) => /=; xor_ac.
Qed.

Lemma polyMod_lxor u v : polyMod (Z.lxor u v) = Z.lxor (polyMod u) (polyMod v).
Proof.
by rewrite /polyMod; elim: (iota 0 7) => [|k l IH] //=; rewrite IH reduceStep_lxor.
Qed.

Lemma schoolbookMul_lxor a b c :
  schoolbookMul a (Z.lxor b c) = Z.lxor (schoolbookMul a b) (schoolbookMul a c).
Proof. by rewrite /schoolbookMul clmul_lxor polyMod_lxor. Qed.

Lemma schoolbookMul_byte a b : isByte a -> isByte b -> isByte (schoolbookMul a b).
Proof.
have H : all (fun a => all (fun b => isByte (schoolbookMul a b)) bytes) bytes.
  by vm_compute.
exact: (all_bytes2P H).
Qed.

(** C3: the multiplication read off the tables is the schoolbook product of
    binary polynomials modulo 0x11D, it is commutative, and it distributes
    over XOR. *)
Theorem mul_schoolbook_comm_distr (a b c : Z) :
  (0 <= a <= 255)%Z -> (0 <= b <= 255)%Z -> (0 <= c <= 255)%Z ->
  [/\ mul a b = Some (schoolbookMul a b),
      mul a b = mul b a
    & mul a (Z.lxor b c) = Some (jsXor (mul a b) (mul a c))].
Proof.
move=> Ha Hb Hc.
have {}Ha : isByte a by apply/isByteP; lia.
have {}Hb : isByte b by apply/isByteP; lia.
have {}Hc : isByte c by apply/isByteP; lia.
split; [exact: mul_schoolbook | exact: mulC |].
rewrite !mul_schoolbook ?lxor_byte // schoolbookMul_lxor.
by rewrite jsXor_byte ?schoolbookMul_byte.
Qed.

Lemma mul_schoolbook_comm_distr_witness :
  [/\ mul 3 7 = Some (schoolbookMul 3 7),
      mul 3 7 = mul 7 3
    & mul 3 (Z.lxor 7 9) = Some (jsXor (mul 3 7) (mul 3 9))].
Proof. by apply: mul_schoolbook_comm_distr; lia. Defined.

(** ** The last iteration of the table loop *)

(** Two readings of a logarithm agree when both are missing, or both are
    table entries that are equal modulo 255; the second is in [0, 254]. *)
Definition logRel (p p' : num) : bool :=
  match p, p' with
  | None, None => true
  | Some a, Some a' =>
      [&& (0 <=? a)%Z, (a <=? 255)%Z, (0 <=? a')%Z, (a' <=? 254)%Z
        & (a mod 255 =? a')%Z]
  | _, _ => false
  end.

Lemma logRel_some a a' :
  (0 <= a <= 255)%Z -> (0 <= a' <= 254)%Z -> (a mod 255 = a')%Z ->
  logRel (Some a) (Some a').
Proof.
move=> [? ?] [? ?] ?; apply/and5P.
by split; [apply/Z.leb_le | apply/Z.leb_le | apply/Z.leb_le | apply/Z.leb_le | apply/Z.eqb_eq].
Qed.

Lemma logRel_inv p p' :
  logRel p p' ->
  match p, p' with
  | None, None => True
  | Some a, Some a' => (0 <= a <= 255 /\ 0 <= a' <= 254 /\ a mod 255 = a')%Z
  | _, _ => False
  end.
Proof.
case: p p' => [a|] [a'|] //=.
by move=> /and5P [/Z.leb_le ? /Z.leb_le ? /Z.leb_le ? /Z.leb_le ? /Z.eqb_eq ?].
Qed.

Section TwoTables.

Variables (logs exps logs' exps' : seq num).

Hypothesis logs_rel : forall v, logRel (arrGet logs v) (arrGet logs' v).
Hypothesis exps_rel : forall p p', logRel p p' -> arrGet exps p = arrGet exps' p'.

Lemma logRel_sum p p' q q' :
  logRel p p' -> logRel q q' ->
  jsRem (jsAdd p q) maxShares = jsRem (jsAdd p' q') maxShares /\
  logRel (jsRem (jsAdd p q) maxShares) (jsRem (jsAdd p q) maxShares).
Proof.
move=> Hp Hq; move: (logRel_inv Hp) (logRel_inv Hq) => {Hp Hq}.
case: p p' q q' => [a|] [a'|] // [b|] [b'|] //= Ha Hb.
rewrite /maxShares !Z.rem_mod_nonneg; try lia.
have -> : ((a' + b') mod 255 = (a + b) mod 255)%Z.
  by move: Ha Hb => [_ [_ <-]] [_ [_ <-]]; Z.div_mod_to_equations; lia.
split=> //; have ? := Z.mod_pos_bound (a + b) 255.
by apply: logRel_some; rewrite ?Z.mod_mod //; lia.
Qed.

Lemma fofxStep_two logX logX' c fx :
  logRel logX logX' ->
  fofxStep logs exps logX c fx = fofxStep logs' exps' logX' c fx.
Proof.
move=> HX; rewrite /fofxStep; case: ifP => // _.
have [E R] := logRel_sum HX (logs_rel fx).
by rewrite (exps_rel R) E.
Qed.

Lemma calculateFofX_two x coefficients :
  calculateFofX_with logs exps x coefficients =
  calculateFofX_with logs' exps' x coefficients.
Proof.
rewrite /calculateFofX_with.
elim: coefficients => [|c cs IH] //=.
by rewrite IH; apply: fofxStep_two.
Qed.

Lemma lagrangeStep_two x i j p p' :
  logRel p p' -> logRel (lagrangeStep logs x i p j) (lagrangeStep logs' x i p' j).
Proof.
move=> Hp; rewrite /lagrangeStep; case: ifP => // _.
have := logRel_inv (logs_rel (Some (jsXor (Some 0%Z) (nth None x j)))).
have := logRel_inv (logs_rel (Some (jsXor (nth None x i) (nth None x j)))).
move: (logRel_inv Hp) => {Hp}.
case: p p' => [a|] [a'|] //;
  case: (arrGet logs _) => [b|]; case: (arrGet logs' _) => [b'|] //;
  case: (arrGet logs _) => [c|]; case: (arrGet logs' _) => [c'|] //= Ha Hb Hc.
rewrite /maxShares !Z.rem_mod_nonneg; try lia.
have ? := Z.mod_pos_bound (a + c - b + 255) 255.
have ? := Z.mod_pos_bound (a' + c' - b' + 255) 255.
have E : ((a' + c' - b' + 255) mod 255 = (a + c - b + 255) mod 255)%Z.
  by move: Ha Hb Hc => [_ [_ <-]] [_ [_ <-]] [_ [_ <-]]; Z.div_mod_to_equations; lia.
by apply: logRel_some; rewrite ?E ?Z.mod_mod //; lia.
Qed.

Lemma lagrangeProduct_two x i js p p' :
  logRel p p' ->
  logRel (foldl (lagrangeStep logs x i) p js) (foldl (lagrangeStep logs' x i) p' js).
Proof.
by elim: js p p' => [|j js IH] p p' Hp //=; apply: IH; apply: lagrangeStep_two.
Qed.

Lemma lagrange_two x y : lagrange_with logs exps x y = lagrange_with logs' exps' x y.
Proof.
rewrite /lagrange_with; elim: (iota 0 (size x)) 0%Z => [|i l IH] sum //=.
rewrite IH; congr foldl; rewrite /lagrangeTerm; case: ifP => // _.
by rewrite (exps_rel (lagrangeProduct_two _ _ _ (logs_rel _))).
Qed.

End TwoTables.

(** The tables of a loop that stops after 255 iterations, before the
    generator's powers wrap around. *)
Definition logarithms255 : seq num := calculatedLogarithms_of (buildTables 255).
Definition exponents255 : seq num := calculatedExponents_of (buildTables 255).

Lemma logs_rel255 v : logRel (arrGet calculatedLogarithms v) (arrGet logarithms255 v).
Proof.
case: v => [z|] //; rewrite /arrGet; case: Z.leb_spec => // Hz.
case: (Z.ltb_spec z 256) => Hlt.
  have Hb : isByte z by apply/isByteP.
  have H : all (fun z => logRel (nth None calculatedLogarithms (Z.to_nat z))
                                (nth None logarithms255 (Z.to_nat z))) bytes.
    by vm_compute.
  exact: (all_bytesP H Hb).
have Hs : (256 <= Z.to_nat z)%N by apply/leP; lia.
by rewrite !nth_default.
Qed.

Lemma exps_rel255 p p' :
  logRel p p' -> arrGet calculatedExponents p = arrGet exponents255 p'.
Proof.
move=> H; move: (logRel_inv H) => {H}.
case: p p' => [a|] [a'|] // [Ha [_ <-]].
have Hb : isByte a by apply/isByteP; lia.
have H : all (fun a => arrGet calculatedExponents (Some a)
                       == arrGet exponents255 (Some (a mod 255)%Z)) bytes.
  by vm_compute.
exact/eqP/(all_bytesP H Hb).
Qed.

(** C10: the 256th iteration of the table loop writes [exp[255] = 1] and
    overwrites [log[1]] from 0 to 255; still [exp[log[a] mod 255] = a] for
    every non-zero byte, and [calculateFofX] and [lagrange] return what they
    return over the tables of the first 255 iterations, where [log[1] = 0]. *)
Theorem last_iteration_harmless :
  [/\ [/\ calculatedExponents = arrSet exponents255 255 1,
          calculatedLogarithms = arrSet logarithms255 1 255
        & arrGet logarithms255 (Some 1%Z) = Some 0%Z],
      forall a, (1 <= a <= 255)%Z ->
        exists2 l, arrGet calculatedLogarithms (Some a) = Some l
                 & arrGet calculatedExponents (Some (l mod 255)%Z) = Some a,
      forall x coefficients,
        calculateFofX x coefficients =
        calculateFofX_with logarithms255 exponents255 x coefficients
    & forall x y, lagrange x y = lagrange_with logarithms255 exponents255 x y].
Proof.
split.
- by split; vm_compute.
- move=> a Ha.
  have Hb : isByte a by apply/isByteP; lia.
  have Hn : a <> 0%Z by lia.
  have [E Hl Hg] := glogP Hb Hn.
  exists (glog a) => //.
  have Hi : (0 <= glog a mod 255 < 255)%Z by apply: Z.mod_pos_bound.
  by have [-> _ _ _] := gexpP Hi; rewrite Hg.
- by move=> x cs; apply: calculateFofX_two logs_rel255 exps_rel255 _ _.
- by move=> x y; apply: lagrange_two logs_rel255 exps_rel255 _ _.
Qed.

(** ** GF(2^8) as a field *)

Definition mulZ (a b : Z) : Z := odflt 0%Z (mul a b).

Arguments mulZ : simpl never.

Definition invZ (a : Z) : Z :=
  if (a =? 0)%Z then 0%Z else gexp ((255 - glog a) mod 255).

Lemma mulZ0 a : mulZ a 0 = 0%Z.
Proof. by rewrite /mulZ /mul /mul_with orbT. Qed.

Lemma mul0Z a : mulZ 0 a = 0%Z.
Proof. by []. Qed.

Lemma mulZ_exp a b : isByte a -> isByte b -> a <> 0%Z -> b <> 0%Z ->
  mulZ a b = gexp ((glog a + glog b) mod 255).
Proof.
move=> Ha Hb Hna Hnb; rewrite /mulZ /mul /mul_with.
have [-> _ _] := glogP Ha Hna; have [-> _ _] := glogP Hb Hnb.
by move/Z.eqb_neq: Hna => ->; move/Z.eqb_neq: Hnb => ->.
Qed.

Lemma mulZE a b : isByte a -> isByte b -> mulZ a b = schoolbookMul a b.
Proof. by move=> Ha Hb; rewrite /mulZ mul_schoolbook. Qed.

Lemma mulZ_byte a b : isByte a -> isByte b -> isByte (mulZ a b).
Proof. by move=> Ha Hb; rewrite mulZE //; apply: schoolbookMul_byte. Qed.

Lemma mulZC a b : mulZ a b = mulZ b a.
Proof. by rewrite /mulZ mulC. Qed.

Lemma mulZ_neq0 a b : isByte a -> isByte b -> a <> 0%Z -> b <> 0%Z -> mulZ a b <> 0%Z.
Proof.
move=> Ha Hb Hna Hnb; rewrite mulZ_exp //.
have Hi : (0 <= (glog a + glog b) mod 255 < 255)%Z by apply: Z.mod_pos_bound.
by have [] := gexpP Hi.
Qed.

Lemma glog_mulZ a b : isByte a -> isByte b -> a <> 0%Z -> b <> 0%Z ->
  (glog (mulZ a b) mod 255 = (glog a + glog b) mod 255)%Z.
Proof.
move=> Ha Hb Hna Hnb; rewrite mulZ_exp //.
have Hi : (0 <= (glog a + glog b) mod 255 < 255)%Z by apply: Z.mod_pos_bound.
by have [_ _ _ ->] := gexpP Hi.
Qed.

Lemma mulZA a b c : isByte a -> isByte b -> isByte c ->
  mulZ a (mulZ b c) = mulZ (mulZ a b) c.
Proof.
move=> Ha Hb Hc.
have [->|Hna] := Z.eq_dec a 0; first by rewrite !mul0Z.
have [->|Hnb] := Z.eq_dec b 0; first by rewrite ?mulZ0 ?mul0Z.
have [->|Hnc] := Z.eq_dec c 0; first by rewrite !mulZ0.
rewrite (mulZ_exp Ha) ?(@mulZ_exp (mulZ a b)) //; try exact: mulZ_byte; try exact: mulZ_neq0.
congr gexp.
rewrite -Z.add_mod_idemp_r // glog_mulZ // Z.add_mod_idemp_r //.
by rewrite -(Z.add_mod_idemp_l (glog (mulZ a b))) // glog_mulZ // Z.add_mod_idemp_l // Z.add_assoc.
Qed.

Lemma mul1Z a : isByte a -> mulZ 1 a = a.
Proof.
move=> Ha; apply/eqP.
have H : all (fun a => mulZ 1 a == a) bytes by vm_compute.
exact: (all_bytesP H Ha).
Qed.

Lemma mulZDr a b c : isByte a -> isByte b -> isByte c ->
  mulZ a (Z.lxor b c) = Z.lxor (mulZ a b) (mulZ a c).
Proof.
by move=> Ha Hb Hc; rewrite !mulZE ?lxor_byte // schoolbookMul_lxor.
Qed.

Lemma invZ_byte a : isByte a -> isByte (invZ a).
Proof.
move=> Ha.
have H : all (fun a => isByte (invZ a)) bytes by vm_compute.
exact: (all_bytesP H Ha).
Qed.

Lemma mulVZ a : isByte a -> a <> 0%Z -> mulZ (invZ a) a = 1%Z.
Proof.
move=> Ha /Z.eqb_neq Hn; apply/eqP.
have H : all (fun a => (a =? 0)%Z || (mulZ (invZ a) a == 1%Z)) bytes by vm_compute.
by have := all_bytesP H Ha; rewrite Hn.
Qed.

Lemma Z_codeK :
  cancel (fun z : Z => ((z <? 0)%Z, Z.abs_nat z))
         (fun c : bool * nat => if c.1 then (- Z.of_nat c.2)%Z else Z.of_nat c.2).
Proof. by move=> z /=; case: Z.ltb_spec => ?; lia. Qed.

HB.instance Definition _ := CanHasChoice Z_codeK.

(** The field elements: the integers the code computes with, in [0, 255]. *)
Record gf256 := GF { gfval :> Z; gfvalP : isByte gfval }.

HB.instance Definition _ := [isSub for gfval].
HB.instance Definition _ := [Choice of gf256 by <:].

Definition gf_zero : gf256 := @GF 0%Z isT.
Definition gf_one : gf256 := @GF 1%Z isT.
Definition gf_add (a b : gf256) : gf256 := GF (lxor_byte (gfvalP a) (gfvalP b)).
Definition gf_mul (a b : gf256) : gf256 := GF (mulZ_byte (gfvalP a) (gfvalP b)).
Definition gf_inv (a : gf256) : gf256 := GF (invZ_byte (gfvalP a)).

Lemma gf_addA : associative gf_add.
Proof. by move=> a b c; apply: val_inj; rewrite /= Z.lxor_assoc. Qed.

Lemma gf_addC : commutative gf_add.
Proof. by move=> a b; apply: val_inj; rewrite /= Z.lxor_comm. Qed.

Lemma gf_add0 : left_id gf_zero gf_add.
Proof. by move=> a; apply: val_inj; rewrite /= ?Z.lxor_0_l. Qed.

Lemma gf_addN : left_inverse gf_zero id gf_add.
Proof. by move=> a; apply: val_inj; rewrite /= Z.lxor_nilpotent. Qed.

HB.instance Definition _ := GRing.isZmodule.Build gf256 gf_addA gf_addC gf_add0 gf_addN.

Lemma gf_mulA : associative gf_mul.
Proof. by move=> a b c; apply: val_inj; apply: mulZA; apply: gfvalP. Qed.

Lemma gf_mulC : commutative gf_mul.
Proof. by move=> a b; apply: val_inj; apply: mulZC. Qed.

Lemma gf_mul1 : left_id gf_one gf_mul.
Proof. by move=> a; apply: val_inj; apply: mul1Z; apply: gfvalP. Qed.

Lemma gf_mulDl : left_distributive gf_mul gf_add.
Proof.
move=> a b c; apply: val_inj.
by rewrite /= mulZC mulZDr ?gfvalP // !(mulZC c).
Qed.

Lemma gf_one_neq0 : gf_one != gf_zero.
Proof. by []. Qed.

HB.instance Definition _ :=
  GRing.Zmodule_isComNzRing.Build gf256 gf_mulA gf_mulC gf_mul1 gf_mulDl gf_one_neq0.

Lemma gf_mulV (x : gf256) : x != 0%R -> gf_mul (gf_inv x) x = 1%R.
Proof.
move=> Hx; apply: val_inj; apply: mulVZ; first exact: gfvalP.
by move=> E; move/negP: Hx; apply; apply/eqP; apply: val_inj.
Qed.

Lemma gf_inv0 : gf_inv 0%R = 0%R.
Proof. exact: val_inj. Qed.

HB.instance Definition _ := GRing.ComNzRing_isField.Build gf256 gf_mulV gf_inv0.

(** ** Lagrange interpolation over a field *)

Section LagrangeFormula.

Local Open Scope ring_scope.
Import GRing.Theory.

Variable F : fieldType.
Variable xs : seq F.
Hypothesis xs_uniq : uniq xs.

Local Notation n := (size xs).
Local Notation x_ := (nth 0 xs).

Definition lbasis (i : 'I_n) : {poly F} := \prod_(j < n | j != i) ('X - (x_ j)%:P).
Definition ldenom (i : 'I_n) : F := \prod_(j < n | j != i) (x_ i - x_ j).

Lemma x_inj (i j : 'I_n) : (x_ i == x_ j) = (i == j).
Proof. by rewrite nth_uniq. Qed.

Lemma ldenom_neq0 i : ldenom i != 0.
Proof. by apply/prodf_neq0 => j Hj; rewrite subr_eq0 x_inj eq_sym. Qed.

Lemma lbasis_at (i k : 'I_n) : (lbasis i).[x_ k] = if k == i then ldenom i else 0.
Proof.
rewrite /lbasis horner_prod; case: eqP => [->|/eqP Hki].
  by apply: eq_bigr => j _; rewrite hornerXsubC.
by rewrite (bigD1 k) //= hornerXsubC subrr mul0r.
Qed.

Lemma size_lbasis i : (size (lbasis i) <= n)%N.
Proof.
rewrite /lbasis -big_filter; have [e _ _ [_ size_e]] := big_enumP.
by rewrite size_prod_XsubC size_e cardC1 card_ord (ltn_predK (ltn_ord i)).
Qed.

Definition linterp (p : {poly F}) : {poly F} :=
  \sum_(i < n) (p.[x_ i] / ldenom i) *: lbasis i.

Lemma linterp_at p (k : 'I_n) : (linterp p).[x_ k] = p.[x_ k].
Proof.
rewrite /linterp horner_sum (bigD1 k) //= big1 => [i Hik|].
  by rewrite hornerZ lbasis_at eq_sym (negbTE Hik) mulr0.
by rewrite hornerZ lbasis_at eqxx addr0 divfK // ldenom_neq0.
Qed.

Lemma size_linterp p : (size (linterp p) <= n)%N.
Proof.
apply: (leq_trans (size_sum _ _ _)); apply/bigmax_leqP => i _.
exact: leq_trans (size_scale_leq _ _) (size_lbasis i).
Qed.

Lemma linterpE (p : {poly F}) : (size p <= n)%N -> p = linterp p.
Proof.
move=> Hp; apply/eqP; rewrite -subr_eq0; apply/eqP.
apply: (@roots_geq_poly_eq0 _ _ xs) => //.
  apply/allP => x /(nthP 0) [k Hk <-].
  by rewrite rootE hornerD hornerN (linterp_at p (Ordinal Hk)) subrr.
apply: (leq_trans (size_polyD _ _)); rewrite size_polyN geq_max Hp.
exact: size_linterp.
Qed.

(** The value at 0 of a polynomial of degree below [n], from its values at
    the [n] distinct points. *)
Theorem lagrange_at0 (p : {poly F}) :
  (size p <= n)%N ->
  p.[0] = \sum_(i < n) p.[x_ i] * \prod_(j < n | j != i) ((0 - x_ j) / (x_ i - x_ j)).
Proof.
move=> Hp; rewrite {1}(linterpE Hp) /linterp horner_sum.
apply: eq_bigr => i _.
by rewrite hornerZ /lbasis horner_prod prodf_div -mulrA [_^-1 * _]mulrC;
   congr (_ * (_ / _)); apply: eq_bigr => j _; rewrite hornerXsubC.
Qed.

End LagrangeFormula.

(** A loop over [iota 0 n] as an operator indexed by ['I_n]. *)
Lemma big_iota0 (R : Type) (idx : R) (op : R -> R -> R) n (P : pred nat) (F : nat -> R) :
  \big[op/idx]_(i <- iota 0 n | P i) F i = \big[op/idx]_(i < n | P i) F i.
Proof. by rewrite -big_mkord /index_iota subn0. Qed.

(** ** The code's arithmetic, read in the field *)

Section CodeInField.

Local Open Scope ring_scope.
Import GRing.Theory.

Arguments gfval : simpl never.

Definition toF (z : Z) : gf256 := insubd (0 : gf256) z.

Lemma toFK z : isByte z -> gfval (toF z) = z.
Proof. by move=> Hz; rewrite /toF insubdK. Qed.

Lemma gfvalK (a : gf256) : toF (gfval a) = a.
Proof. exact: valKd. Qed.

Lemma gfval_inj : injective gfval.
Proof. exact: val_inj. Qed.

Lemma gf_mulE (a b : gf256) : gfval (a * b) = mulZ (gfval a) (gfval b).
Proof. by []. Qed.

Lemma gf_addE (a b : gf256) : gfval (a + b) = Z.lxor (gfval a) (gfval b).
Proof. by []. Qed.

Lemma gf_oppE (a : gf256) : - a = a.
Proof. by []. Qed.

Lemma gf_neq0 (a : gf256) : a != 0 -> gfval a <> 0%Z.
Proof. by move=> Ha E; move/negP: Ha; apply; apply/eqP; apply: val_inj. Qed.

Lemma jsXor_sub (a b : gf256) : jsXor (Some (gfval a)) (Some (gfval b)) = gfval (a - b).
Proof. by rewrite jsXor_byte ?gfvalP. Qed.

Lemma jsXor_0 (b : gf256) : jsXor (Some 0%Z) (Some (gfval b)) = gfval b.
Proof. by rewrite jsXor_byte ?gfvalP. Qed.

Lemma gexp_byte a : isByte a ->
  arrGet calculatedExponents (Some a) = Some (gexp a) /\ isByte (gexp a).
Proof.
move=> Ha.
have H : all (fun a => (arrGet calculatedExponents (Some a) == Some (gexp a))
                       && isByte (gexp a)) bytes by vm_compute.
by have /andP [/eqP H1 H2] := all_bytesP H Ha; split.
Qed.

Lemma gexp_mod a : (0 <= a <= 255)%Z -> gexp a = gexp (a mod 255).
Proof.
move=> Ha; have [->|Hne] := Z.eq_dec a 255; first by [].
by rewrite Z.mod_small //; lia.
Qed.

Lemma gexp_add p q : (0 <= p < 255)%Z -> (0 <= q < 255)%Z ->
  mulZ (gexp p) (gexp q) = gexp ((p + q) mod 255).
Proof.
move=> Hp Hq.
have [_ Bp Np Lp] := gexpP Hp; have [_ Bq Nq Lq] := gexpP Hq.
rewrite mulZ_exp //; congr gexp.
by rewrite Z.add_mod // Lp Lq.
Qed.

(** One step of [calculateFofX] is one step of Horner's rule. *)
Lemma fofxStep_field (x c fx : gf256) :
  x != 0 ->
  fofxStep calculatedLogarithms calculatedExponents
    (arrGet calculatedLogarithms (Some (gfval x))) (Some (gfval c)) (Some (gfval fx))
  = Some (gfval (fx * x + c)).
Proof.
move=> /gf_neq0 Hx; rewrite /fofxStep /=.
case: Z.eqb_spec => [E|Hfx] /=.
  have -> : fx = 0 by apply: gfval_inj.
  by rewrite mul0r add0r.
have [-> Lx _] := glogP (gfvalP x) Hx; have [-> Lf _] := glogP (gfvalP fx) Hfx.
rewrite /jsAdd /jsRem /maxShares Z.rem_mod_nonneg; try lia.
have Hi : (0 <= (glog x + glog fx) mod 255 < 255)%Z by apply: Z.mod_pos_bound.
have [-> Be _ _] := gexpP Hi.
by rewrite jsXor_byte ?gfvalP // gf_addE gf_mulE mulZ_exp ?gfvalP // Z.add_comm.
Qed.

Lemma calculateFofX_field (x : gf256) (cs : seq gf256) :
  x != 0 ->
  calculateFofX (Some (gfval x)) [seq Some (gfval c) | c <- cs]
  = Some (gfval (Poly cs).[x]).
Proof.
move=> Hx; rewrite horner_Poly /calculateFofX /calculateFofX_with.
by elim: cs => [|c cs IH] //=; rewrite IH fofxStep_field.
Qed.

Variable xs : seq gf256.
Hypothesis xs_uniq : uniq xs.
Hypothesis xs_neq0 : 0 \notin xs.

Local Notation x_ := (nth 0 xs).
Local Notation xN := [seq Some (gfval x) | x <- xs].

Lemma nth_xN j : (j < size xs)%N -> nth None xN j = Some (gfval (x_ j)).
Proof. by move=> Hj; rewrite (nth_map 0). Qed.

Lemma x_neq0 j : (j < size xs)%N -> x_ j != 0.
Proof. by move=> Hj; apply: contraNneq xs_neq0 => <-; apply: mem_nth. Qed.

Lemma lagrangeStep_field i j a :
  (i < size xs)%N -> (j < size xs)%N -> i != j -> (0 <= a <= 255)%Z ->
  exists a', [/\ lagrangeStep calculatedLogarithms xN i (Some a) j = Some a',
                 (0 <= a' <= 255)%Z
               & toF (gexp a') = toF (gexp a) * ((0 - x_ j) / (x_ i - x_ j))].
Proof.
move=> Hi Hj Hij Ha; rewrite /lagrangeStep Hij !nth_xN //.
have Nj := gf_neq0 (x_neq0 Hj).
have Dij : x_ i - x_ j != 0 by rewrite subr_eq0 nth_uniq.
have Nij := gf_neq0 Dij.
rewrite jsXor_sub jsXor_0.
have [-> Lj Ej] := glogP (gfvalP (x_ j)) Nj.
have [-> Lij Eij] := glogP (gfvalP (x_ i - x_ j)) Nij.
rewrite /jsAdd /jsSub /jsRem /maxShares Z.rem_mod_nonneg; try lia.
set a' := (_ mod 255)%Z.
have Ha' : (0 <= a' < 255)%Z by apply: Z.mod_pos_bound.
exists a'; split=> //; first by lia.
have Hmod : forall l, (0 <= l mod 255 < 255)%Z by move=> l; apply: Z.mod_pos_bound.
have Hb : forall l, (0 <= l <= 255)%Z -> isByte (gexp l).
  by move=> l Hl; have [] := @gexp_byte l; first by apply/isByteP; lia.
suff E : toF (gexp a') * (x_ i - x_ j) = toF (gexp a) * x_ j.
  by rewrite sub0r gf_oppE mulrA -E mulfK.
apply: gfval_inj; rewrite !gf_mulE !toFK ?Hb //; try lia.
rewrite -[in LHS]Eij -[in RHS]Ej (gexp_mod Ha) !gexp_add //.
by congr gexp; rewrite /a'; Z.div_mod_to_equations; lia.
Qed.

Lemma lagrangeProduct_field i js a :
  (i < size xs)%N -> all (fun j => j < size xs)%N js -> (0 <= a <= 255)%Z ->
  exists a', [/\ foldl (lagrangeStep calculatedLogarithms xN i) (Some a) js = Some a',
                 (0 <= a' <= 255)%Z
               & toF (gexp a') =
                 toF (gexp a) * \prod_(j <- js | j != i) ((0 - x_ j) / (x_ i - x_ j))].
Proof.
move=> Hi; elim: js a => [|j js IH] a /=.
  by move=> _ Ha; exists a; rewrite big_nil mulr1.
move=> /andP [Hj Hjs] Ha; rewrite big_cons eq_sym.
case: (eqVneq i j) => [<-|Hij] /=.
  by rewrite /lagrangeStep eqxx /=; apply: IH.
have [a1 [-> Ha1 E1]] := lagrangeStep_field Hi Hj Hij Ha.
have [a2 [-> Ha2 E2]] := IH a1 Hjs Ha1.
by exists a2; split=> //; rewrite E2 E1 -mulrA.
Qed.

Local Notation term ys i :=
  (nth 0 ys i * \prod_(j <- iota 0 (size xs) | j != i) ((0 - x_ j) / (x_ i - x_ j))).

Lemma gexp_glog (y : gf256) : y != 0 -> toF (gexp (glog (gfval y))) = y.
Proof.
move=> /gf_neq0 Hy; have [_ Ly Ey] := glogP (gfvalP y) Hy.
by rewrite gexp_mod // Ey gfvalK.
Qed.

Lemma lagrangeTerm_field (ys : seq gf256) (s : gf256) i :
  (i < size xs)%N ->
  lagrangeTerm calculatedLogarithms calculatedExponents xN
    [seq Some (gfval y) | y <- ys] (gfval s) i
  = gfval (s + term ys i).
Proof.
move=> Hi; rewrite /lagrangeTerm size_map.
have [Hy|Hy] := leqP (size ys) i.
  by rewrite (@nth_default _ None) ?size_map // (@nth_default _ 0 ys) //= mul0r addr0.
rewrite (nth_map 0) //=; case: Z.eqb_spec => [E|Hne] /=.
  have -> : nth 0 ys i = 0 by apply: gfval_inj.
  by rewrite mul0r addr0.
have Hy0 : nth 0 ys i != 0 by apply: contra_notN Hne => /eqP ->.
have [-> Ly _] := glogP (gfvalP (nth 0 ys i)) Hne.
have Hall : all (fun j => j < size xs)%N (iota 0 (size xs)).
  by apply/allP => j; rewrite mem_iota.
have [a' [-> Ha' Ea']] := lagrangeProduct_field Hi Hall Ly.
have [|-> Hb] := @gexp_byte a'; first by apply/isByteP; lia.
rewrite jsXor_byte ?gfvalP // gf_addE; congr Z.lxor.
by rewrite -(toFK Hb) Ea' gexp_glog.
Qed.

Lemma lagrangeSum_field (ys : seq gf256) (s : gf256) l :
  all (fun i => i < size xs)%N l ->
  foldl (lagrangeTerm calculatedLogarithms calculatedExponents xN
           [seq Some (gfval y) | y <- ys]) (gfval s) l
  = gfval (s + \sum_(i <- l) term ys i).
Proof.
elim: l s => [|i l IH] s /=; first by rewrite big_nil addr0.
by move=> /andP [Hi Hl]; rewrite lagrangeTerm_field // IH // big_cons addrA.
Qed.

(** [lagrange] computes the interpolation formula in the field. *)
Lemma lagrange_field (ys : seq gf256) :
  lagrange xN [seq Some (gfval y) | y <- ys]
  = gfval (\sum_(i < size xs) nth 0 ys i *
             \prod_(j < size xs | j != i) ((0 - x_ j) / (x_ i - x_ j))).
Proof.
rewrite /lagrange /lagrange_with size_map -[0%Z]/(gfval 0) lagrangeSum_field.
  by apply/allP => j; rewrite mem_iota.
rewrite add0r big_iota0; congr gfval; apply: eq_bigr => i _.
by rewrite big_iota0.
Qed.

(** Interpolating the values of a polynomial of degree below the number
    of points gives back its constant coefficient. *)
Lemma lagrange_Poly (cs : seq gf256) :
  (size cs <= size xs)%N ->
  lagrange xN [seq Some (gfval (Poly cs).[x]) | x <- xs] = gfval (nth 0 cs 0).
Proof.
move=> Hs.
have -> : [seq Some (gfval (Poly cs).[x]) | x <- xs]
          = [seq Some (gfval y) | y <- [seq (Poly cs).[x] | x <- xs]].
  by rewrite -map_comp.
rewrite lagrange_field -coef_Poly -horner_coef0.
rewrite (@lagrange_at0 _ xs xs_uniq (Poly cs)) ?(leq_trans (size_Poly _)) //.
by congr gfval; apply: eq_bigr => i _; rewrite (nth_map 0).
Qed.

End CodeInField.

(** ** Interpolation recovers the constant term *)

Definition isShareId (z : Z) : bool := (1 <=? z)%Z && (z <=? 255)%Z.

Lemma isShareIdP z : reflect (1 <= z <= 255)%Z (isShareId z).
Proof.
rewrite /isShareId; apply: (iffP andP) => [[/Z.leb_le H1 /Z.leb_le H2]|[H1 H2]] //.
by split; apply/Z.leb_le.
Qed.

Lemma isShareId_byte z : isShareId z -> isByte z.
Proof. by move=> /isShareIdP H; apply/isByteP; lia. Qed.

Section Interpolation.

Local Open Scope ring_scope.
Import GRing.Theory.

Lemma map_toFK (zs : seq Z) :
  all isByte zs -> [seq Some (gfval a) | a <- [seq toF z | z <- zs]] = [seq Some z | z <- zs].
Proof.
move=> /allP H; rewrite -map_comp; apply/eq_in_map => z Hz /=.
by rewrite toFK // H.
Qed.

Lemma evalPoly_field cs x :
  all isByte cs -> isByte x ->
  evalPoly cs x = gfval (Poly [seq toF c | c <- cs]).[toF x].
Proof.
move=> Hcs Hx; rewrite horner_Poly.
elim: cs Hcs => [|c cs IH] //= /andP [Hc Hcs].
have Hb : isByte (evalPoly cs x) by rewrite IH //; exact: gfvalP.
by rewrite !toFK // -IH // mulZE.
Qed.

Lemma calculateFofX_evalPoly cs x :
  all isByte cs -> isShareId x ->
  calculateFofX (Some x) [seq Some c | c <- cs] = Some (evalPoly cs x).
Proof.
move=> Hcs Hx; have Hb := isShareId_byte Hx.
rewrite evalPoly_field // -calculateFofX_field ?toFK ?map_toFK //.
apply/eqP => /(congr1 gfval); rewrite toFK //.
by move/isShareIdP: Hx => Hx E; rewrite E in Hx; case: Hx.
Qed.

Lemma lagrange_evalPoly (coefficients xs : seq Z) :
  all isByte coefficients -> all isShareId xs -> uniq xs ->
  (size coefficients <= size xs)%N ->
  lagrange [seq Some x | x <- xs] [seq Some (evalPoly coefficients x) | x <- xs]
  = nth 0%Z coefficients 0.
Proof.
move=> Hcs Hxs Uxs Hsize.
have Bxs : all isByte xs by apply: sub_all Hxs; exact: isShareId_byte.
pose xsF := [seq toF x | x <- xs]; pose csF := [seq toF c | c <- coefficients].
have UF : uniq xsF.
  rewrite map_inj_in_uniq // => x y /(allP Bxs) Hx /(allP Bxs) Hy /(congr1 gfval).
  by rewrite !toFK.
have NF : (0 : gf256) \notin xsF.
  apply/mapP => -[x Hx /(congr1 gfval)]; rewrite toFK ?(allP Bxs) // => E.
  by move/(allP Hxs)/isShareIdP: Hx; rewrite -E; case.
have -> : [seq Some (evalPoly coefficients x) | x <- xs]
          = [seq Some (gfval (Poly csF).[x]) | x <- xsF].
  rewrite -map_comp; apply/eq_in_map => x Hx /=.
  by rewrite evalPoly_field // (allP Bxs).
rewrite -(map_toFK Bxs) lagrange_Poly // ?size_map // /csF.
by case: (coefficients) Hcs => [|c cs] //= /andP [Hc _]; rewrite toFK.
Qed.

Lemma evalPoly_at0 (coefficients : seq Z) :
  evalPoly coefficients 0 = nth 0%Z coefficients 0.
Proof. by case: coefficients. Qed.

(** C2: for a polynomial f over GF(2^8) with byte coefficients and degree
    below the number of points, [lagrange] applied to pairwise distinct
    x-coordinates in [1, 255] and the values of f there returns f(0), which
    is the constant term of f. *)
Theorem lagrange_recovers_constant (coefficients xs : seq Z) :
  all isByte coefficients -> all isShareId xs -> uniq xs ->
  (size coefficients <= size xs)%N ->
  lagrange [seq Some x | x <- xs] [seq Some (evalPoly coefficients x) | x <- xs]
  = evalPoly coefficients 0
  /\ evalPoly coefficients 0 = nth 0%Z coefficients 0.
Proof.
move=> Hcs Hxs Uxs Hsize; have E0 := evalPoly_at0 coefficients.
by split=> //; rewrite E0; apply: lagrange_evalPoly.
Qed.

Lemma lagrange_recovers_constant_witness :
  lagrange [seq Some x | x <- [:: 1; 2; 3]%Z]
           [seq Some (evalPoly [:: 77; 1; 3]%Z x) | x <- [:: 1; 2; 3]%Z]
  = evalPoly [:: 77; 1; 3]%Z 0
  /\ evalPoly [:: 77; 1; 3]%Z 0 = 77%Z.
Proof. exact: (@lagrange_recovers_constant [:: 77; 1; 3]%Z [:: 1; 2; 3]%Z). Defined.

End Interpolation.

(** ** Strings: slices and padding *)

Arguments toString : simpl never.
Arguments parseInt : simpl never.
Arguments jsSlice : simpl never.
Arguments padLeft : simpl never.
Arguments hexadecimalToBinary : simpl never.
Arguments binaryToHexadecimal : simpl never.
Arguments splitNumStringToIntArray : simpl never.
Arguments lagrange : simpl never.
Arguments calculateFofX : simpl never.
Arguments digitChar : simpl never.

(** Arithmetic on sizes: [ssrnat] comparisons and operations are turned
    into those [lia] knows. *)
Ltac nat_norm :=
  repeat match goal with
  | H : is_true (leq _ _) |- _ => move: H => /leP H
  | H : is_true (_ == _ :> nat) |- _ => move: H => /eqP H
  | H : leq _ _ = false |- _ => move: H => /negbT; rewrite -ltnNge => /leP H
  | H : leq _ _ = true |- _ => move: H => /leP H
  end;
  repeat match goal with
  | H : context [addn] |- _ => rewrite -plusE in H
  | H : context [subn] |- _ => rewrite -minusE in H
  | H : context [muln] |- _ => rewrite -multE in H
  end;
  rewrite -?plusE -?minusE -?multE.

Ltac nat_lia :=
  nat_norm;
  first [ lia | apply/leP; nat_norm; lia | apply/eqP; nat_norm; lia ].

Lemma jsSlice_range s (b e : nat) :
  (b <= e)%N -> (e <= size s)%N ->
  jsSlice s (Z.of_nat b) (Some (Z.of_nat e)) = take (e - b) (drop b s).
Proof.
move=> Hbe Hes; rewrite /jsSlice /jsLength.
have -> : (Z.of_nat b <? 0)%Z = false by apply/Z.ltb_ge; lia.
have -> : (Z.of_nat e <? 0)%Z = false by apply/Z.ltb_ge; lia.
have Hb : (b <= size s)%N by apply: leq_trans Hes.
have -> : Z.min (Z.of_nat b) (Z.of_nat (size s)) = Z.of_nat b by nat_lia.
have -> : Z.min (Z.of_nat e) (Z.of_nat (size s)) = Z.of_nat e by nat_lia.
by rewrite Nat2Z.id; congr take; nat_lia.
Qed.

Lemma jsSlice_from s (b : nat) :
  (b <= size s)%N -> jsSlice s (Z.of_nat b) None = drop b s.
Proof.
move=> Hb; rewrite /jsSlice /jsLength.
have -> : (Z.of_nat b <? 0)%Z = false by apply/Z.ltb_ge; lia.
have -> : Z.min (Z.of_nat b) (Z.of_nat (size s)) = Z.of_nat b by nat_lia.
rewrite Nat2Z.id take_oversize // size_drop; nat_lia.
Qed.

Lemma jsSlice_last s (k : nat) :
  (0 < k)%N -> (k <= size s)%N ->
  jsSlice s (- Z.of_nat k) None = drop (size s - k) s.
Proof.
move=> Hk Hks; rewrite /jsSlice /jsLength.
have -> : (- Z.of_nat k <? 0)%Z = true by apply/Z.ltb_lt; nat_lia.
have -> : Z.max (Z.of_nat (size s) + - Z.of_nat k) 0 = Z.of_nat (size s - k).
  by nat_lia.
rewrite Nat2Z.id take_oversize // size_drop; nat_lia.
Qed.

Definition zeros (k : nat) : jsstring := nseq k "0"%char.

(** The number of zeros [padLeft] puts in front of a string of size [len]. *)
Definition padCount (len : nat) (m : Z) : nat :=
  Z.to_nat ((m - Z.of_nat len mod m) mod m).

Lemma padLeftE s m :
  (2 <= m <= 1024)%Z -> padLeft s m = Ok (zeros (padCount (size s) m) ++ s).
Proof.
move=> Hm; rewrite /padLeft /padCount /zeroPadding.
have [N HN] : exists N, N = 1023%N by exists 1023%N.
rewrite -HN.
have -> : (m =? 0)%Z = false by apply/Z.eqb_neq; lia.
have -> : (m =? 1)%Z = false by apply/Z.eqb_neq; lia.
have -> /= : (1024 <? m)%Z = false by apply/Z.ltb_ge; lia.
case: s => [|c s] /=.
  by rewrite Z.mod_0_l ?Z.sub_0_r ?Z_mod_same_full //; lia.
rewrite /jsLength Z.rem_mod_nonneg; try lia.
set len := size (c :: s); set r := (Z.of_nat len mod m)%Z.
have Hr : (0 <= r < m)%Z by apply: Z.mod_pos_bound; lia.
case: Z.eqb_spec => [E|Hne] /=.
  by rewrite E Z.sub_0_r Z_mod_same_full.
rewrite Z.mod_small; [lia|].
have -> : (m - r + Z.of_nat len)%Z = Z.of_nat (Z.to_nat (m - r) + len) by nat_lia.
rewrite jsSlice_last; [nat_lia | by rewrite size_cat size_nseq -/len; nat_lia |].
rewrite drop_cat size_cat !size_nseq.
have -> : (N + len - (Z.to_nat (m - r) + len) < N)%N by nat_lia.
by rewrite drop_nseq /zeros -/len; congr (Ok (nseq _ _ ++ _)); nat_lia.
Qed.

(** ** Strings: binary and hexadecimal digits *)

Definition isBin (c : ascii) : bool := (c == "0"%char) || (c == "1"%char).

Definition bitOf (c : ascii) : Z := if c == "1"%char then 1%Z else 0%Z.

(** The number a binary string denotes, most significant digit first. *)
Definition binValue (s : jsstring) : Z :=
  foldl (fun acc c => 2 * acc + bitOf c)%Z 0%Z s.

(** The [n] low bits of [v] as a string, most significant first. *)
Fixpoint bitsOf (n : nat) (v : Z) : jsstring :=
  if n is n'.+1
  then rcons (bitsOf n' (v / 2)) (if Z.odd v then "1"%char else "0"%char)
  else [::].

Definition allAscii : seq ascii := [seq ascii_of_nat i | i <- iota 0 256].

Lemma all_asciiP (P : ascii -> bool) : all P allAscii -> forall c, P c.
Proof.
move=> /allP H c; apply: H; rewrite -(ascii_nat_embedding c).
apply: map_f; rewrite mem_iota /= add0n.
by apply/ltP; apply: nat_ascii_bounded.
Qed.

Lemma parseDigits_bin acc s :
  all isBin s ->
  parseDigits 2 acc s =
  if s is [::] then acc
  else Some (foldl (fun a c => 2 * a + bitOf c)%Z (odflt 0%Z acc) s).
Proof.
elim: s acc => [|c s IH] acc //= /andP [Hc Hs].
have -> : digitValue c = Some (bitOf c).
  by move: Hc; rewrite /isBin => /orP [] /eqP ->.
have -> : (bitOf c <? 2)%Z = true by rewrite /bitOf; case: ifP.
by rewrite IH //; case: s {IH Hs}.
Qed.

Lemma parseInt_bin s : all isBin s -> s != [::] -> parseInt s 2 = Some (binValue s).
Proof. by move=> Hs Hn; rewrite /parseInt parseDigits_bin //; case: s Hn {Hs}. Qed.

Lemma binValue_rcons s c : binValue (rcons s c) = (2 * binValue s + bitOf c)%Z.
Proof. by rewrite /binValue -cats1 foldl_cat. Qed.

Lemma binValue_bound s : (0 <= binValue s < 2 ^ Z.of_nat (size s))%Z.
Proof.
elim/last_ind: s => [|s c IH] //; rewrite binValue_rcons size_rcons.
rewrite Nat2Z.inj_succ Z.pow_succ_r; [lia|].
by rewrite /bitOf; case: ifP => _; lia.
Qed.

Lemma size_bitsOf n v : size (bitsOf n v) = n.
Proof. by elim: n v => [|n IH] v //=; rewrite size_rcons IH. Qed.

Lemma bitsOf_bin n v : all isBin (bitsOf n v).
Proof.
elim: n v => [|n IH] v //=; rewrite all_rcons IH andbT.
by case: (Z.odd v).
Qed.

Lemma bitsOf_binValue s : all isBin s -> bitsOf (size s) (binValue s) = s.
Proof.
elim/last_ind: s => [|s c IH] //; rewrite all_rcons => /andP [Hc Hs].
rewrite size_rcons binValue_rcons /=.
have Hb : (0 <= bitOf c <= 1)%Z by rewrite /bitOf; case: ifP => _; lia.
have -> : ((2 * binValue s + bitOf c) / 2 = binValue s)%Z.
  by Z.div_mod_to_equations; lia.
rewrite IH //; congr rcons.
rewrite Z.add_comm Z.odd_add_mul_2.
by move: Hc; rewrite /isBin /bitOf => /orP [] /eqP ->.
Qed.

Lemma binValue_bitsOf n v :
  (0 <= v < 2 ^ Z.of_nat n)%Z -> binValue (bitsOf n v) = v.
Proof.
elim: n v => [|n IH] v; first by rewrite /= => ?; rewrite /binValue /=; lia.
rewrite Nat2Z.inj_succ Z.pow_succ_r; [lia|].
move=> Hv; rewrite /= binValue_rcons IH; [by Z.div_mod_to_equations; lia|].
have -> : bitOf (if Z.odd v then "1"%char else "0"%char) = (v mod 2)%Z.
  by rewrite Zmod_odd; case: (Z.odd v).
by Z.div_mod_to_equations; lia.
Qed.

(** The four binary digits of a hexadecimal digit. *)
Definition hexNibble (c : ascii) : jsstring := bitsOf 4 (hexValue c).

(** [c.toLowerCase()] on the ASCII letters. *)
Definition toLowerCase (c : ascii) : ascii :=
  if inRange "A" "Z" c then ascii_of_nat (nat_of_ascii c + 32) else c.

Definition okIs (r : result jsstring) (s : jsstring) : bool :=
  if r is Ok s' then s' == s else false.

Lemma okIsP r s : okIs r s -> r = Ok s.
Proof. by case: r => //= s' /eqP ->. Qed.

Lemma hexChar_parse c :
  if isHexChar c
  then [&& parseInt [:: c] 16 == Some (hexValue c),
           okIs (padLeft (toString (Some (hexValue c)) 2) 4) (hexNibble c),
           (0 <=? hexValue c)%Z, (hexValue c <? 16)%Z
         & (digitChar (hexValue c) == toLowerCase c)
           && (digitValue c == Some (hexValue c))]
  else parseInt [:: c] 16 == None.
Proof.
have H : all (fun c =>
    if isHexChar c
    then [&& parseInt [:: c] 16 == Some (hexValue c),
             okIs (padLeft (toString (Some (hexValue c)) 2) 4) (hexNibble c),
             (0 <=? hexValue c)%Z, (hexValue c <? 16)%Z
           & (digitChar (hexValue c) == toLowerCase c)
             && (digitValue c == Some (hexValue c))]
    else parseInt [:: c] 16 == None) allAscii by vm_compute.
exact: (all_asciiP H).
Qed.

Lemma hexadecimalToBinaryE s :
  hexadecimalToBinary s =
  if all isHexChar s then Ok (flatten [seq hexNibble c | c <- s])
  else Throw InvalidHexCharacter.
Proof.
rewrite /hexadecimalToBinary; elim: s => [|c s IH] //=; rewrite IH.
have := hexChar_parse c.
case: (all isHexChar s); case: (isHexChar c) => //=.
- by move=> /and5P [/eqP -> /okIsP -> _ _ _].
- by move=> /eqP ->.
Qed.

Lemma nibble_toString v :
  (0 <= v < 16)%Z -> toString (Some v) 16 = [:: digitChar v] /\ isHexChar (digitChar v).
Proof.
move=> Hv; have Hb : isByte v by apply/isByteP; lia.
have H : all (fun v => (16 <=? v)%Z ||
                       ((toString (Some v) 16 == [:: digitChar v]) && isHexChar (digitChar v)))
             bytes by vm_compute.
have := all_bytesP H Hb.
by case: Z.leb_spec => [?|_ /andP [/eqP -> ->]] //; lia.
Qed.

Definition isNibble (g : jsstring) : bool := all isBin g && (size g == 4).

Lemma size_flatten_nibbles ns : all isNibble ns -> size (flatten ns) = (4 * size ns)%N.
Proof.
elim: ns => [|g ns IH] //= /andP [/andP [_ /eqP Hg] Hns].
by rewrite size_cat Hg IH // mulnS.
Qed.

Lemma binaryToHexadecimalLoopS fuel b i hex :
  binaryToHexadecimalLoop fuel.+1 b i hex =
  if (4 <=? i)%Z then
    match parseInt (jsSlice b (i - 4) (Some i)) 2 with
    | None => Throw InvalidBinaryCharacter
    | Some n => binaryToHexadecimalLoop fuel b (i - 4) (toString (Some n) 16 ++ hex)
    end
  else Ok hex.
Proof. by []. Qed.

Lemma binaryToHexadecimalLoopE ns1 ns2 fuel hex :
  all isNibble ns1 -> (size ns1 <= fuel)%N ->
  binaryToHexadecimalLoop fuel (flatten (ns1 ++ ns2)) (Z.of_nat (4 * size ns1)) hex
  = Ok ([seq digitChar (binValue g) | g <- ns1] ++ hex).
Proof.
elim/last_ind: ns1 ns2 fuel hex => [|ns1 g IH] ns2 fuel hex.
  by move=> _ _; case: fuel.
rewrite all_rcons size_rcons => /andP [/andP [Hg /eqP Sg] Hns].
case: fuel => [|fuel] // Hf.
rewrite binaryToHexadecimalLoopS.
have -> : (4 <=? Z.of_nat (4 * (size ns1).+1))%Z = true by apply/Z.leb_le; nat_lia.
have -> : (Z.of_nat (4 * (size ns1).+1) - 4 = Z.of_nat (4 * size ns1))%Z by nat_lia.
have Sf := size_flatten_nibbles Hns.
rewrite cat_rcons flatten_cat [flatten (g :: ns2)]/=.
rewrite jsSlice_range; [nat_lia | by rewrite !size_cat Sf Sg; nat_lia |].
rewrite (drop_size_cat _ Sf).
have -> : (4 * (size ns1).+1 - 4 * size ns1 = size g)%N by rewrite Sg; nat_lia.
rewrite take_size_cat // parseInt_bin //; [by case: (g) Sg|].
have Hv : (0 <= binValue g < 16)%Z by have := binValue_bound g; rewrite Sg.
have [-> _] := nibble_toString Hv.
have := IH (g :: ns2) fuel (digitChar (binValue g) :: hex) Hns Hf.
by rewrite flatten_cat /= => ->; rewrite map_rcons cat_rcons.
Qed.

Lemma binaryToHexadecimal_nibbles ns :
  all isNibble ns ->
  binaryToHexadecimal (flatten ns) = Ok [seq digitChar (binValue g) | g <- ns].
Proof.
move=> Hns; rewrite /binaryToHexadecimal padLeftE; [by []|].
have Hs := size_flatten_nibbles Hns.
have -> : padCount (size (flatten ns)) 4 = 0%N.
  rewrite /padCount Hs; have -> : Z.of_nat (4 * size ns) = (Z.of_nat (size ns) * 4)%Z by nat_lia.
  by rewrite Z.mod_mul.
rewrite /zeros /= /jsLength Hs.
have := @binaryToHexadecimalLoopE ns [::] (4 * size ns) [::] Hns.
by rewrite !cats0; apply; nat_lia.
Qed.

(** ** Strings: bytes and chunks *)

Definition isOctet (g : jsstring) : bool := all isBin g && (size g == 8).

(** The eight binary digits of a byte. *)
Definition byteBits (v : Z) : jsstring := bitsOf 8 v.

Arguments byteBits : simpl never.
Arguments hexNibble : simpl never.

Lemma size_byteBits v : size (byteBits v) = 8.
Proof. exact: size_bitsOf. Qed.

Lemma byteBits_bin v : all isBin (byteBits v).
Proof. exact: bitsOf_bin. Qed.

Lemma byteBits_octet v : isOctet (byteBits v).
Proof. by rewrite /isOctet byteBits_bin size_byteBits. Qed.

Lemma byte_toString v :
  isByte v -> padLeft (toString (Some v) 2) fieldBits = Ok (byteBits v).
Proof.
move=> Hv; apply: okIsP.
have H : all (fun v => okIs (padLeft (toString (Some v) 2) fieldBits) (byteBits v)) bytes.
  by vm_compute.
exact: (all_bytesP H Hv).
Qed.

Lemma rcons_zeros k : rcons (zeros k) "0"%char = zeros k.+1.
Proof. by rewrite /zeros; elim: k => [|k IH] //=; rewrite IH. Qed.

Lemma bitsOf_0 k : bitsOf k 0 = zeros k.
Proof. by elim: k => [|k IH] //=; rewrite IH rcons_zeros. Qed.

Lemma bitsOf_pad k n v :
  (0 <= v < 2 ^ Z.of_nat n)%Z -> bitsOf (k + n) v = zeros k ++ bitsOf n v.
Proof.
elim: n v => [|n IH] v.
  rewrite addn0 /= cats0 => Hv.
  have -> : v = 0%Z by lia.
  exact: bitsOf_0.
rewrite Nat2Z.inj_succ Z.pow_succ_r; [lia|] => Hv.
rewrite addnS /= IH ?rcons_cat //.
by Z.div_mod_to_equations; lia.
Qed.

Lemma byteBits_binValue s :
  all isBin s -> (size s <= 8)%N -> byteBits (binValue s) = zeros (8 - size s) ++ s.
Proof.
move=> Hs Hsize; rewrite /byteBits -{1}(subnK Hsize) bitsOf_pad; [exact: binValue_bound|].
by rewrite bitsOf_binValue.
Qed.

Lemma binValue_byteBits v : isByte v -> binValue (byteBits v) = v.
Proof. by move=> /isByteP Hv; apply: binValue_bitsOf. Qed.

Lemma binValue_byte s : (size s <= 8)%N -> isByte (binValue s).
Proof.
move=> Hs; apply/isByteP; have := binValue_bound s.
have : (2 ^ Z.of_nat (size s) <= 2 ^ 8)%Z by apply: Z.pow_le_mono_r; nat_lia.
by lia.
Qed.

Lemma size_flatten_octets bs : all isOctet bs -> size (flatten bs) = (8 * size bs)%N.
Proof.
elim: bs => [|g bs IH] //= /andP [/andP [_ /eqP Hg] Hbs].
by rewrite size_cat Hg IH // mulnS.
Qed.

Lemma splitLoopS fuel s i parts :
  splitLoop fuel.+1 s i parts =
  if (fieldBits <? i)%Z
  then splitLoop fuel s (i - fieldBits)
         (rcons parts (parseInt (jsSlice s (i - fieldBits) (Some i)) 2))
  else rcons parts (parseInt (jsSlice s 0 (Some i)) 2).
Proof. by []. Qed.

Lemma splitLoop0 s i parts :
  splitLoop 0 s i parts = rcons parts (parseInt (jsSlice s 0 (Some i)) 2).
Proof. by []. Qed.

Lemma splitLoopE top bs rest fuel parts :
  all isOctet bs -> (0 < size top <= 8)%N -> (size bs <= fuel)%N ->
  splitLoop fuel (top ++ flatten bs ++ rest) (Z.of_nat (size top + 8 * size bs)) parts
  = parts ++ rev [seq parseInt g 2 | g <- bs] ++ [:: parseInt top 2].
Proof.
move=> Hbs /andP [Ht0 Ht8].
elim/last_ind: bs Hbs rest fuel parts => [|bs g IH] Hbs rest fuel parts Hf.
  have E : splitLoop fuel (top ++ rest) (Z.of_nat (size top)) parts
           = rcons parts (parseInt (jsSlice (top ++ rest) 0 (Some (Z.of_nat (size top)))) 2).
    case: fuel {Hf} => [|fuel] //; rewrite splitLoopS.
    by have -> : (fieldBits <? Z.of_nat (size top))%Z = false by apply/Z.ltb_ge; rewrite /fieldBits; nat_lia.
  rewrite /= muln0 addn0 E -[0%Z]/(Z.of_nat 0) jsSlice_range //; [by rewrite size_cat leq_addr|].
  by rewrite drop0 subn0 take_size_cat // cats1.
move: Hbs Hf; rewrite all_rcons size_rcons => /andP [/andP [Hg /eqP Sg] Hbs].
case: fuel => [|fuel] // Hf; rewrite splitLoopS.
have Sf := size_flatten_octets Hbs.
have -> : (fieldBits <? Z.of_nat (size top + 8 * (size bs).+1))%Z = true.
  by apply/Z.ltb_lt; rewrite /fieldBits; nat_lia.
have -> : (Z.of_nat (size top + 8 * (size bs).+1) - fieldBits
           = Z.of_nat (size top + 8 * size bs))%Z by rewrite /fieldBits; nat_lia.
rewrite -cats1 flatten_cat /= cats0 -!catA.
rewrite jsSlice_range; [nat_lia | by rewrite !size_cat Sf Sg; nat_lia |].
rewrite catA drop_size_cat; [by rewrite size_cat Sf|].
have -> : (size top + 8 * (size bs).+1 - (size top + 8 * size bs) = size g)%N by rewrite Sg; nat_lia.
rewrite take_size_cat // -catA.
have := IH Hbs (g ++ rest) fuel (rcons parts (parseInt g 2)) Hf.
move=> ->; rewrite map_cat rev_cat /= -cats1 -!catA.
by [].
Qed.

Lemma splitNum_None s :
  splitNumStringToIntArray s None = Ok (splitLoop (size s) s (jsLength s) [::]).
Proof. by []. Qed.

Lemma octets_split b :
  all isBin b -> b != [::] ->
  exists top bs,
    [/\ b = top ++ flatten bs, all isBin top, (0 < size top <= 8)%N,
        all isOctet bs & size b = (size top + 8 * size bs)%N].
Proof.
move: {2}(size b).+1 (ltnSn (size b)) => n; elim: n b => // n IH b Hn Hb Hne.
have Hpos : (0 < size b)%N by case: (b) Hne.
case: (leqP (size b) 8) => H8.
  by exists b, [::]; rewrite cats0 /= muln0 addn0 Hpos H8.
move: Hb; rewrite -{1}(cat_take_drop (size b - 8) b) all_cat => /andP [Ht Hd].
have St : size (take (size b - 8) b) = (size b - 8)%N by rewrite size_takel // leq_subr.
have Sd : size (drop (size b - 8) b) = 8 by rewrite size_drop; nat_lia.
have [||top [bs [E Htop Stop Hbs Sz]]] := IH (take (size b - 8) b) _ Ht.
- by rewrite St; nat_lia.
- by rewrite -size_eq0 St; nat_lia.
exists top, (rcons bs (drop (size b - 8) b)); split=> //.
- by rewrite -cats1 flatten_cat /= cats0 catA -E cat_take_drop.
- by rewrite all_rcons Hbs /isOctet Hd Sd.
- by rewrite size_rcons; move: Sz; rewrite St; nat_lia.
Qed.

Lemma octet_parse g : isOctet g -> [/\ parseInt g 2 = Some (binValue g),
  isByte (binValue g) & byteBits (binValue g) = g].
Proof.
move=> /andP [Hb /eqP Hs]; split.
- by rewrite parseInt_bin //; case: (g) Hs.
- by apply: binValue_byte; rewrite Hs.
- by rewrite /byteBits -Hs bitsOf_binValue.
Qed.

Lemma splitNum_chunks b :
  all isBin b -> b != [::] ->
  exists vs,
    [/\ splitNumStringToIntArray b None = Ok [seq Some v | v <- vs],
        all isByte vs, (size b <= 8 * size vs < size b + 8)%N
      & flatten (rev [seq byteBits v | v <- vs]) = zeros (8 * size vs - size b) ++ b].
Proof.
move=> Hb Hne; have [top [bs [E Htop /andP [St0 St8] Hbs Sz]]] := octets_split Hb Hne.
exists (rev [seq binValue g | g <- bs] ++ [:: binValue top]).
have Ebs : [seq byteBits (binValue g) | g <- bs] = bs.
  by rewrite -[RHS]map_id; apply/eq_in_map => g /(allP Hbs) /octet_parse [].
split.
- rewrite splitNum_None /jsLength Sz E -[flatten bs]cats0.
  have Hrange : (0 < size top <= 8)%N by rewrite St0.
  have Hfuel : (size bs <= size top + 8 * size bs)%N by nat_lia.
  rewrite (splitLoopE _ _ Hbs Hrange Hfuel).
  have Hnt : top != [::] by case: (top) St0.
  rewrite map_cat map_rev -!map_comp /= (parseInt_bin Htop Hnt).
  congr (Ok (rev _ ++ _)); apply/eq_in_map => g /(allP Hbs) /octet_parse [-> _ _].
  by [].
- rewrite all_cat all_rev /= andbT; apply/andP; split; last exact: binValue_byte.
  apply/allP => v /mapP [g /(allP Hbs) /octet_parse [_ H1 _] ->]; exact: H1.
- by rewrite size_cat size_rev size_map /= Sz; apply/andP; split; nat_lia.
- have -> : flatten (rev [seq byteBits v | v <- rev [seq binValue g | g <- bs] ++ [:: binValue top]])
            = byteBits (binValue top) ++ flatten bs.
    by rewrite map_cat rev_cat map_rev revK -map_comp Ebs.
  rewrite byteBits_binValue // size_cat size_rev size_map [size [:: _]]/= Sz -catA -E.
  by congr (zeros _ ++ _); nat_lia.
Qed.

Lemma joinChunks_bytes vs :
  all isByte vs ->
  joinChunks [seq Some v | v <- vs] = Ok (flatten (rev [seq byteBits v | v <- vs])).
Proof.
rewrite /joinChunks -[flatten _]cats0.
elim: vs [::] => [|v vs IH] acc //= /andP [Hv Hvs].
by rewrite byte_toString //= IH // rev_cons -cats1 flatten_cat /= ?cats0 -?catA.
Qed.

Lemma splitNum_bits vs :
  all isByte vs -> vs != [::] ->
  splitNumStringToIntArray (flatten (rev [seq byteBits v | v <- vs])) None
  = Ok [seq Some v | v <- vs].
Proof.
case/lastP: vs => [|vs v] //; rewrite all_rcons => /andP [Hv Hvs] _.
rewrite map_rcons rev_rcons.
set bs := rev [seq byteBits v | v <- vs].
have Hbs : all isOctet bs.
  by rewrite all_rev; apply/allP => g /mapP [w _ ->]; apply: byteBits_octet.
have -> : flatten (byteBits v :: bs) = byteBits v ++ flatten bs ++ [::].
  by rewrite cats0.
rewrite splitNum_None /jsLength.
rewrite !size_cat size_byteBits size_flatten_octets // addn0.
have Hrange : (0 < size (byteBits v) <= 8)%N by rewrite size_byteBits.
have Hfuel : (size bs <= 8 + 8 * size bs)%N by nat_lia.
rewrite -[X in (X + 8 * _)%N](size_byteBits v) (splitLoopE _ _ Hbs Hrange) ?size_byteBits //.
have Hp : forall w, isByte w -> parseInt (byteBits w) 2 = Some w.
  move=> w Hw.
  have Hne : byteBits w != [::] by rewrite -size_eq0 size_byteBits.
  by rewrite (parseInt_bin (byteBits_bin w) Hne) binValue_byteBits.
rewrite (Hp _ Hv) /bs map_rev revK -map_comp map_rcons -cats1; congr (Ok (_ ++ _)).
by congr (_ ++ _); apply/eq_in_map => w /(allP Hvs) Hw /=; rewrite Hp.
Qed.

(** ** Round trips of the codecs *)

Lemma hexChar_facts c :
  isHexChar c ->
  [/\ isNibble (hexNibble c), binValue (hexNibble c) = hexValue c,
      (0 <= hexValue c < 16)%Z, digitChar (hexValue c) = toLowerCase c
    & digitValue c = Some (hexValue c)].
Proof.
move=> Hc; have := hexChar_parse c; rewrite Hc.
move=> /and5P [_ _ /Z.leb_le H0 /Z.ltb_lt H16 /andP [/eqP Hd /eqP Hv]]; split=> //.
- by rewrite /isNibble /hexNibble bitsOf_bin size_bitsOf.
- by rewrite /hexNibble binValue_bitsOf.
Qed.

Lemma hexNibbles_ok h : all isHexChar h -> all isNibble [seq hexNibble c | c <- h].
Proof. by move=> /allP H; apply/allP => g /mapP [c /H /hexChar_facts [Hn _ _ _ _] ->]. Qed.

Lemma hex_round_trip h :
  all isHexChar h ->
  (let* bits := hexadecimalToBinary h in binaryToHexadecimal bits)
  = Ok [seq toLowerCase c | c <- h].
Proof.
move=> Hh; rewrite hexadecimalToBinaryE Hh /= binaryToHexadecimal_nibbles.
  exact: hexNibbles_ok.
rewrite -map_comp; congr Ok; apply/eq_in_map => c /(allP Hh) /hexChar_facts /=.
by case=> _ -> _ -> _.
Qed.

Lemma split_join b :
  all isBin b -> b != [::] ->
  (let* parts := splitNumStringToIntArray b None in joinChunks parts)
  = Ok (zeros (padCount (size b) 8) ++ b).
Proof.
move=> Hb Hne; have [vs [-> Hvs /andP [H1 H2] E]] := splitNum_chunks Hb Hne.
rewrite /= joinChunks_bytes // E; congr (Ok (zeros _ ++ _)).
rewrite /padCount; apply: Nat2Z.inj; rewrite Z2Nat.id.
  by have := Z.mod_pos_bound (8 - Z.of_nat (size b) mod 8) 8; lia.
have -> : Z.of_nat (8 * size vs - size b) = (8 * Z.of_nat (size vs) - Z.of_nat (size b))%Z.
  by nat_lia.
by nat_norm; Z.div_mod_to_equations; lia.
Qed.

(** C8 (amended): converting a hexadecimal string to binary and back gives
    the string in lower case; a non-empty binary string whose length is a
    multiple of 8 is recovered from its chunks, each written on 8 bits, the
    first chunk last. *)
Theorem codecs_round_trip (h b : jsstring) :
  all isHexChar h -> all isBin b -> b != [::] -> (8 %| size b)%N ->
  (let* bits := hexadecimalToBinary h in binaryToHexadecimal bits)
    = Ok [seq toLowerCase c | c <- h]
  /\ (let* parts := splitNumStringToIntArray b None in joinChunks parts) = Ok b.
Proof.
move=> Hh Hb Hne /dvdnP [k Hk]; split; first exact: hex_round_trip.
rewrite split_join //.
have -> : padCount (size b) 8 = 0%N; last by [].
rewrite /padCount Hk.
have -> : Z.of_nat (k * 8) = (Z.of_nat k * 8)%Z by nat_lia.
by rewrite Z.mod_mul.
Qed.

Lemma codecs_round_trip_witness :
  (let* bits := hexadecimalToBinary (str "a1f0") in binaryToHexadecimal bits)
    = Ok [seq toLowerCase c | c <- str "a1f0"]
  /\ (let* parts := splitNumStringToIntArray (str "1010000111110000") None in
      joinChunks parts) = Ok (str "1010000111110000").
Proof. exact: (@codecs_round_trip (str "a1f0") (str "1010000111110000")). Defined.

(** C8 as stated fails on an upper-case digit, and on the empty binary
    string, whose only chunk is [NaN]. *)
Lemma codecs_round_trip_counterexample :
  (let* bits := hexadecimalToBinary (str "AB") in binaryToHexadecimal bits)
    <> Ok (str "AB")
  /\ (let* parts := splitNumStringToIntArray [::] None in joinChunks parts)
    <> Ok [::].
Proof. by split; vm_compute. Qed.

(** ** Random coefficients *)

Arguments randomBitsAttempt : simpl never.

Lemma bufferAttempt (b : byte) :
  (let* string :=
     randomBitsLoop (Z.to_nat 1 + Z.to_nat fieldBits) (bufferToHex [:: b]) 1 fieldBits 0 [::] in
   Ok (jsSlice string (- fieldBits) None))
  = Ok (byteBits (byteZ b)).
Proof. by case: b; vm_compute. Qed.

Lemma randomBitsAttemptE rnd pos :
  randomBitsAttempt fieldBits rnd pos = Ok (byteBits (byteZ (rnd pos)), pos.+1).
Proof.
rewrite /randomBitsAttempt /randomBytes.
have -> : Z.to_nat ((fieldBits + 7) / 8) = 1%N by [].
rewrite addn1 [map _ _]/=.
have := bufferAttempt (rnd pos).
have -> : (if bufferToHex [:: rnd pos] is [::] then 0 else jsLength (bufferToHex [:: rnd pos]) - 1)%Z = 1%Z.
  by [].
by case: (randomBitsLoop _ _ _ _ _ _) => //= s [->].
Qed.

Lemma byteZ_byte b : isByte (byteZ b).
Proof. by case: b. Qed.

Lemma allZeros_byteBits v :
  isByte v -> (count (pred1 "0"%char) (byteBits v) == size (byteBits v)) = (v =? 0)%Z.
Proof.
move=> Hv.
have H : all (fun v => (count (pred1 "0"%char) (byteBits v) == size (byteBits v))
                       == (v =? 0)%Z) bytes by vm_compute.
exact: (eqP (all_bytesP H Hv)).
Qed.

Lemma getRandomBinaryStringS fuel rnd pos :
  getRandomBinaryString fuel.+1 fieldBits rnd pos =
  if (byteZ (rnd pos) =? 0)%Z then getRandomBinaryString fuel fieldBits rnd pos.+1
  else Ok (byteBits (byteZ (rnd pos)), pos.+1).
Proof.
by rewrite [LHS]/= randomBitsAttemptE /= allZeros_byteBits ?byteZ_byte.
Qed.

Lemma getRandomBinaryString_first_nonzero_aux fuel rnd pos k :
  (forall j, (j < k)%N -> byteZ (rnd (pos + j)%N) = 0%Z) ->
  byteZ (rnd (pos + k)%N) <> 0%Z ->
  getRandomBinaryString fuel fieldBits rnd pos =
  if (k < fuel)%N then Ok (byteBits (byteZ (rnd (pos + k)%N)), (pos + k).+1)
  else Diverge.
Proof.
elim: fuel pos k => [|fuel IH] pos k Hz Hk //.
rewrite getRandomBinaryStringS; case: k Hz Hk => [|k] Hz Hk.
  by move: Hk; rewrite addn0 => /Z.eqb_neq ->.
have -> : (byteZ (rnd pos) =? 0)%Z = true.
  by apply/Z.eqb_eq; rewrite -[pos]addn0; apply: Hz.
rewrite (IH pos.+1 k) ?addSnnS //.
by move=> j Hj; rewrite addSnnS; apply: Hz.
Qed.

(** ** Reconstruction: parsing the shares *)

Lemma exps_entries p :
  if arrGet calculatedExponents p is Some e then isByte e else true.
Proof.
case: p => [z|] //; rewrite /arrGet; case: Z.leb_spec => // Hz.
have H : all (fun e : num => if e is Some v then isByte v else true) calculatedExponents.
  by vm_compute.
case: (ltnP (Z.to_nat z) (size calculatedExponents)) => Hs.
  exact: (all_nthP None H).
by rewrite nth_default.
Qed.

Lemma lagrange_byte x y : isByte (lagrange x y).
Proof.
rewrite /lagrange /lagrange_with.
have: isByte 0%Z by [].
elim: (iota 0 (size x)) 0%Z => [|i l IH] sum Hsum //=.
apply: IH; rewrite /lagrangeTerm; case: ifP => // _.
have := exps_entries (foldl (lagrangeStep calculatedLogarithms x i)
                        (arrGet calculatedLogarithms (nth None y i)) (iota 0 (size x))).
case: (arrGet calculatedExponents _) => [e|] He.
  by rewrite jsXor_byte //; apply: lxor_byte.
by rewrite /jsXor toInt32_byte //= Z.lxor_0_r.
Qed.

Lemma parseInt_hex2 c0 c1 :
  isHexChar c0 -> isHexChar c1 ->
  parseInt [:: c0; c1] 16 = Some (16 * hexValue c0 + hexValue c1)%Z.
Proof.
move=> /hexChar_facts [_ _ H0 _ E0] /hexChar_facts [_ _ H1 _ E1].
rewrite /parseInt /= E0 E1.
have -> : (hexValue c0 <? 16)%Z = true by apply/Z.ltb_lt; lia.
by have -> : (hexValue c1 <? 16)%Z = true by apply/Z.ltb_lt; lia.
Qed.

Lemma extractShareComponentsE share :
  extractShareComponents share =
  if wellFormedShare share
  then Ok (Share.Make (shareIdOf share) (drop 2 share))
  else Throw InvalidShareId.
Proof.
rewrite /extractShareComponents /shareRegexExec /wellFormedShare /shareFormat.
case Ha: (all isHexChar share); case Hs: (2 < size share)%N => //.
case: share Ha Hs => [|c0 [|c1 [|c2 rest]]] //.
rewrite [all _ _]/= => /and4P [H0 H1 H2 Hr] _.
set v := shareIdOf _; rewrite /= parseInt_hex2 // -[(16 * _ + _)%Z]/v /maxShares.
by case: Z.ltb_spec => ?; case: Z.ltb_spec => ?; case: Z.leb_spec => ?;
   case: Z.leb_spec => ? //=; lia.
Qed.

(** The chunks of the payload of a share. *)
Definition payloadOf (share : jsstring) : seq num :=
  let bits := flatten [seq hexNibble c | c <- drop 2 share] in
  splitLoop (size bits) bits (jsLength bits) [::].

(** One round of the first loop of [deriveSecret], for a well-formed share. *)
Definition deriveNext (xy : seq Z * seq (seq num)) (share : jsstring) :=
  if shareIdOf share \in xy.1 then xy
  else (rcons xy.1 (shareIdOf share),
        storeColumn xy.2 (size xy.1) (payloadOf share)).

Lemma wellFormed_data share : wellFormedShare share -> all isHexChar (drop 2 share).
Proof.
move=> /andP [/andP [/andP [_ H] _] _].
by move: H; rewrite -{1}(cat_take_drop 2 share) all_cat => /andP [].
Qed.

Lemma deriveStepE xy share :
  deriveStep xy share =
  if wellFormedShare share then Ok (deriveNext xy share) else Throw InvalidShareId.
Proof.
rewrite /deriveStep /deriveNext; case: xy => x y.
rewrite extractShareComponentsE; case Hw: (wellFormedShare share) => //=.
case: ifP => // _.
by rewrite hexadecimalToBinaryE (wellFormed_data Hw) /= size_rcons.
Qed.

Lemma deriveLoopE xy shares :
  deriveLoop xy shares =
  if all wellFormedShare shares then Ok (foldl deriveNext xy shares)
  else Throw InvalidShareId.
Proof.
elim: shares xy => [|share shares IH] xy //=.
by rewrite deriveStepE; case: (wellFormedShare share) => //=.
Qed.

(** ** Reconstruction: interpolating and decoding *)

Lemma interpolateColumnsE x y result0 :
  interpolateColumns x y result0
  = Ok (flatten (rev [seq byteBits (lagrange [seq Some v | v <- x] yi) | yi <- y])
        ++ result0).
Proof.
elim: y result0 => [|yi y IH] result0 //=.
rewrite byte_toString ?lagrange_byte //= IH.
by rewrite rev_cons -cats1 flatten_cat /= ?cats0 -?catA.
Qed.

Lemma columns_bin (T : Type) (f : T -> Z) (cols : seq T) :
  all isBin (flatten (rev [seq byteBits (f v) | v <- cols])).
Proof.
elim: cols => [|v cols IH] //.
rewrite map_cons rev_cons -cats1 flatten_cat all_cat IH.
have -> : flatten [:: byteBits (f v)] = byteBits (f v) by exact: cats0.
exact: byteBits_bin.
Qed.

Lemma padCount_mult4 len : exists q, (padCount len 4 + len = 4 * q)%N.
Proof.
rewrite /padCount; set r := ((4 - Z.of_nat len mod 4) mod 4)%Z.
have Hr : (0 <= r < 4)%Z by apply: Z.mod_pos_bound.
exists (Z.to_nat ((r + Z.of_nat len) / 4)).
have Hq : (0 <= (r + Z.of_nat len) / 4)%Z by apply: Z.div_pos; lia.
have Hr0 : (0 <= r)%Z by lia.
apply: Nat2Z.inj.
rewrite -multE -plusE Nat2Z.inj_add Nat2Z.inj_mul (Z2Nat.id _ Hq) (Z2Nat.id _ Hr0).
by move: Hr; rewrite /r; Z.div_mod_to_equations; lia.
Qed.

Lemma nibbles_split b q :
  all isBin b -> size b = (4 * q)%N -> exists2 ns, b = flatten ns & all isNibble ns.
Proof.
elim: q b => [|q IH] b Hb Hs.
  by exists [::] => //; case: b Hs {Hb}.
move: Hb; rewrite -(cat_take_drop 4 b) all_cat => /andP [Ht Hd].
have St : size (take 4 b) = 4 by rewrite size_takel // Hs; nat_lia.
have [|ns E Hns] := IH (drop 4 b) Hd; first by rewrite size_drop Hs; nat_lia.
exists (take 4 b :: ns); first by rewrite /= -E.
by rewrite /= Hns /isNibble Ht St.
Qed.

Lemma binaryToHexadecimal_bin b :
  all isBin b -> exists2 h, binaryToHexadecimal b = Ok h & all isHexChar h.
Proof.
move=> Hb.
have [q Hq] := padCount_mult4 (size b).
set p := zeros (padCount (size b) 4) ++ b.
have Hp : all isBin p by rewrite all_cat Hb andbT all_nseq orbT.
have Sp : size p = (4 * q)%N by rewrite size_cat size_nseq.
have [ns E Hns] := nibbles_split Hp Sp.
have Epad : padCount (size p) 4 = 0%N.
  rewrite /padCount Sp; have -> : Z.of_nat (4 * q) = (Z.of_nat q * 4)%Z by nat_lia.
  by rewrite Z.mod_mul.
have EQ : binaryToHexadecimal b = binaryToHexadecimal p.
  by rewrite /binaryToHexadecimal !padLeftE // Epad.
exists [seq digitChar (binValue g) | g <- ns].
  by rewrite EQ E binaryToHexadecimal_nibbles.
apply/allP => c /mapP [g /(allP Hns) /andP [Hg /eqP Sg] ->].
have Hv : (0 <= binValue g < 16)%Z by have := binValue_bound g; rewrite Sg.
by have [] := nibble_toString Hv.
Qed.

Lemma jsSlice_afterMarker r :
  exists2 k, (k <= size r)%N & jsSlice r (indexOf r "1"%char + 1) None = drop k r.
Proof.
rewrite /indexOf; case: ifP => Hin.
  exists (index "1"%char r).+1; first by rewrite index_mem.
  have -> : (Z.of_nat (index "1"%char r) + 1 = Z.of_nat (index "1"%char r).+1)%Z by lia.
  by rewrite jsSlice_from // index_mem.
by exists 0%N => //; rewrite -[(-1 + 1)%Z]/(Z.of_nat 0) jsSlice_from.
Qed.

Lemma all_drop_bin k r : all isBin r -> all isBin (drop k r).
Proof. by rewrite -{1}(cat_take_drop k r) all_cat => /andP []. Qed.

Lemma deriveSecret_wellFormed (shares : seq jsstring) :
  all wellFormedShare shares ->
  exists2 h, deriveSecret shares = Ok h & all isHexChar h.
Proof.
move=> Hw; rewrite /deriveSecret deriveLoopE Hw.
case: (foldl _ _ _) => x y /=; rewrite interpolateColumnsE cats0 /=.
set r := flatten _.
have Hr : all isBin r by apply: columns_bin.
have [k Hk ->] := jsSlice_afterMarker r.
have [h E Hh] := binaryToHexadecimal_bin (all_drop_bin k Hr).
by exists h.
Qed.

(** C4: [deriveSecret] raises exactly when a share does not have the wire
    format with an id in [1, 255]; in every other case, whatever the number
    of distinct shares and the lengths of their payloads, it returns a
    hexadecimal string. *)
Theorem deriveSecret_raises_iff (shares : seq jsstring) :
  is_throw (deriveSecret shares) = ~~ all wellFormedShare shares
  /\ (all wellFormedShare shares ->
      exists2 h, deriveSecret shares = Ok h & all isHexChar h).
Proof.
split; last exact: deriveSecret_wellFormed.
case Hw: (all wellFormedShare shares).
  by have [h -> _] := deriveSecret_wellFormed Hw.
by rewrite /deriveSecret deriveLoopE Hw.
Qed.

Lemma firstOfEachId_fold xy shares :
  foldl deriveNext xy (firstOfEachId xy.1 shares) = foldl deriveNext xy shares.
Proof.
elim: shares xy => [|share shares IH] xy //=.
case Hin: (shareIdOf share \in xy.1).
  have E : deriveNext xy share = xy by rewrite /deriveNext Hin.
  by rewrite E IH.
have E1 : (deriveNext xy share).1 = rcons xy.1 (shareIdOf share).
  by rewrite /deriveNext Hin.
by rewrite /= -E1 IH.
Qed.

Lemma firstOfEachId_wellFormed seen shares :
  all wellFormedShare shares -> all wellFormedShare (firstOfEachId seen shares).
Proof.
elim: shares seen => [|share shares IH] seen //= /andP [Hs Hr].
by case: ifP => _ /=; rewrite ?Hs IH.
Qed.

(** C7: on well-formed shares, [deriveSecret] returns what it returns on the
    sublist that keeps the first share of each id, and it does not raise. *)
Theorem deriveSecret_first_of_each_id (shares : seq jsstring) :
  all wellFormedShare shares ->
  deriveSecret shares = deriveSecret (firstOfEachId [::] shares)
  /\ is_ok (deriveSecret shares).
Proof.
move=> Hw; split.
  rewrite /deriveSecret !deriveLoopE Hw firstOfEachId_wellFormed //.
  by rewrite (firstOfEachId_fold ([::], [::])).
by have [h -> _] := deriveSecret_wellFormed Hw.
Qed.

Lemma deriveSecret_first_of_each_id_witness :
  deriveSecret [:: str "01ab"; str "02cd"; str "01ff"]
    = deriveSecret (firstOfEachId [::] [:: str "01ab"; str "02cd"; str "01ff"])
  /\ is_ok (deriveSecret [:: str "01ab"; str "02cd"; str "01ff"]).
Proof. exact: (@deriveSecret_first_of_each_id [:: str "01ab"; str "02cd"; str "01ff"]). Defined.

(** ** Generation: the random coefficients *)

(** An entropy source is fair for a budget of rounds when every window of
    that many bytes holds a non-zero byte. *)
Definition fairEntropy (fuel : nat) (rnd : entropy) : Prop :=
  forall pos, exists2 k, (k < fuel)%N & byteZ (rnd (pos + k)%N) <> 0%Z.

(** The outcome of a call that draws random bytes: a result that satisfies
    [P], or no result because the source is not fair for the budget. *)
Definition okOrStarved (fuel : nat) (rnd : entropy) (A : Type) (r : result A)
    (P : A -> Prop) : Prop :=
  (exists2 a, r = Ok a & P a) \/ (r = Diverge /\ ~ fairEntropy fuel rnd).

Lemma okOrStarved_bind fuel rnd A B (r : result A) (k : A -> result B) P Q :
  okOrStarved fuel rnd r P ->
  (forall a, P a -> okOrStarved fuel rnd (k a) Q) ->
  okOrStarved fuel rnd (bind r k) Q.
Proof.
by case=> [[a -> Ha] Hk|[-> Hn] _]; [apply: Hk | right].
Qed.

Lemma okOrStarved_fair fuel rnd A (r : result A) P :
  okOrStarved fuel rnd r P -> fairEntropy fuel rnd -> exists2 a, r = Ok a & P a.
Proof. by case=> // -[_ Hn] /Hn. Qed.

Lemma okOrStarved_not_throw fuel rnd A (r : result A) P :
  okOrStarved fuel rnd r P -> is_throw r = false.
Proof. by case=> [[a -> _]|[-> _]]. Qed.

Lemma getRandomBinaryString_spec fuel rnd pos :
  okOrStarved fuel rnd (getRandomBinaryString fuel fieldBits rnd pos)
    (fun out => exists2 v, out.1 = byteBits v & isShareId v).
Proof.
have [Hz|[k Hk Hnz]] :
  (forall j, (j < fuel)%N -> byteZ (rnd (pos + j)%N) = 0%Z)
  \/ exists2 k, (k < fuel)%N
       & (forall j, (j < k)%N -> byteZ (rnd (pos + j)%N) = 0%Z)
         /\ byteZ (rnd (pos + k)%N) <> 0%Z.
- elim: fuel => [|fuel [IH|[k Hk Hnz]]]; first by left.
  + have [E|Hne] := Z.eq_dec (byteZ (rnd (pos + fuel)%N)) 0.
      by left=> j; rewrite ltnS leq_eqVlt => /orP [/eqP ->|/IH].
    by right; exists fuel.
  + by right; exists k => //; apply: ltnW.
- right; split.
    elim: fuel pos Hz => [|fuel IH] pos Hz //.
    rewrite getRandomBinaryStringS.
    have -> : (byteZ (rnd pos) =? 0)%Z = true.
      by apply/Z.eqb_eq; rewrite -[pos]addn0; apply: Hz.
    by apply: IH => j Hj; rewrite addSnnS; apply: Hz.
  by move=> /(_ pos) [k Hk]; rewrite Hz.
- left; case: Hnz => Hz Hnz.
  rewrite (getRandomBinaryString_first_nonzero_aux fuel Hz Hnz) Hk.
  eexists; first by [].
  exists (byteZ (rnd (pos + k)%N)) => //.
  apply/isShareIdP; have /isByteP := byteZ_byte (rnd (pos + k)%N); lia.
Qed.

(** C9 (amended): the sampling loop has no cap and raises no error.  When
    the first non-zero byte of the stream is the [k]-th one from the current
    position, [getRandomBinaryString(8)] returns its eight binary digits
    after exactly [k + 1] rounds, however large [k] is. *)
Theorem getRandomBinaryString_first_nonzero (fuel : nat) (rnd : entropy) (pos k : nat) :
  (forall j, (j < k)%N -> byteZ (rnd (pos + j)%N) = 0%Z) ->
  byteZ (rnd (pos + k)%N) <> 0%Z ->
  getRandomBinaryString fuel fieldBits rnd pos
    = (if (k < fuel)%N then Ok (byteBits (byteZ (rnd (pos + k)%N)), (pos + k).+1)
       else Diverge)
  /\ is_throw (getRandomBinaryString fuel fieldBits rnd pos) = false.
Proof.
move=> Hz Hk; split; first exact: getRandomBinaryString_first_nonzero_aux.
exact: okOrStarved_not_throw (getRandomBinaryString_spec fuel rnd pos).
Qed.

Definition zeroEntropy : entropy := fun _ => x00.

Lemma getRandomBinaryString_first_nonzero_witness :
  getRandomBinaryString 3 fieldBits (fun k => if (k < 2)%N then x00 else x1f) 0
    = Ok (str "00011111", 3%N)
  /\ is_throw (getRandomBinaryString 3 fieldBits
                 (fun k => if (k < 2)%N then x00 else x1f) 0) = false.
Proof.
by apply: (@getRandomBinaryString_first_nonzero 3 _ 0 2) => //; case=> [|[|j]].
Defined.

(** C9 as stated fails on a stream of zero bytes: whatever the number of
    rounds, the loop has neither returned nor raised. *)
Lemma getRandomBinaryString_unbounded :
  ~ exists fuel, getRandomBinaryString fuel fieldBits zeroEntropy 0 <> Diverge.
Proof.
case=> fuel; apply.
by elim: fuel 0%N => [|fuel IH] pos //; rewrite getRandomBinaryStringS /= IH.
Qed.

Lemma randomCoefficients_spec fuel k rnd pos cs :
  okOrStarved fuel rnd (randomCoefficients fuel k rnd pos cs)
    (fun out => exists2 rs, out.1 = cs ++ [seq Some r | r <- rs]
                          & size rs = k /\ all isShareId rs).
Proof.
elim: k pos cs => [|k IH] pos cs /=.
  by left; exists (cs, pos) => //; exists [::]; rewrite ?cats0.
apply: okOrStarved_bind (getRandomBinaryString_spec fuel rnd pos) _.
move=> [bits pos'] /= [v -> Hv].
have Hne : byteBits v != [::] by rewrite -size_eq0 size_byteBits.
rewrite (parseInt_bin (byteBits_bin v) Hne) binValue_byteBits ?isShareId_byte //.
case: (IH pos' (rcons cs (Some v))) => [[out -> [rs E [Hs Hrs]]]|[-> Hn]]; last by right.
left; exists out => //; exists (v :: rs); last by rewrite /= Hs Hv.
by rewrite E -cats1 -catA.
Qed.

Definition idsTo (n : Z) : seq Z := [seq Z.of_nat i | i <- iota 1 (Z.to_nat n)].

Lemma idsTo_shareId n : (n <= 255)%Z -> all isShareId (idsTo n).
Proof.
move=> Hn; apply/allP => j /mapP [i]; rewrite mem_iota => /andP [H1 H2] ->.
by apply/isShareIdP; nat_lia.
Qed.

Lemma calculateRandomizedShares_spec fuel v n t rnd pos :
  isByte v -> (1 <= t)%Z -> (n <= 255)%Z ->
  okOrStarved fuel rnd
    (calculateRandomizedShares fuel (Some v) n t rnd pos)
    (fun out => exists2 poly,
         out.1 = [seq Point j (Some (evalPoly poly j)) | j <- idsTo n]
       & [/\ nth 0%Z poly 0 = v, size poly = Z.to_nat t & all isByte poly]).
Proof.
move=> Hv Ht Hn; rewrite /calculateRandomizedShares.
apply: okOrStarved_bind (randomCoefficients_spec fuel _ rnd pos [:: Some v]) _.
move=> [cs pos'] /= [rs -> [Hs Hrs]].
left; eexists; first by [].
exists (v :: rs) => /=.
  rewrite /idsTo -map_comp; apply/eq_in_map => i Hi /=.
  rewrite -[Some v :: _]/([seq Some c | c <- v :: rs]) calculateFofX_evalPoly //=.
    by rewrite Hv; apply: sub_all Hrs; apply: isShareId_byte.
  by move: Hi; rewrite mem_iota => /andP [H1 H2]; apply/isShareIdP; nat_lia.
split=> //; first by rewrite Hs; nat_lia.
by rewrite Hv; apply: sub_all Hrs; apply: isShareId_byte.
Qed.

(** ** Generation: the shares *)

(** [x[j] || id.toString(16)] *)
Definition keepOrId (xj : option jsstring) (j : Z) : option jsstring :=
  if xj is Some (_ :: _) then xj else Some (toString (Some j) 16).

Lemma collectSubSharesE (ids : seq Z) (w : Z -> Z) (gx gy : Z -> option jsstring) :
  (forall j, isByte (w j)) ->
  collectSubShares [seq Point j (Some (w j)) | j <- ids]
    [seq gx j | j <- ids] [seq gy j | j <- ids]
  = Ok ([seq keepOrId (gx j) j | j <- ids],
        [seq Some (byteBits (w j) ++ odflt [::] (gy j)) | j <- ids]).
Proof.
move=> Hw; elim: ids => [|j ids IH] //.
rewrite !map_cons /collectSubShares -/collectSubShares [px _]/= [py _]/=.
by rewrite byte_toString // [bind (Ok _) _]/= IH.
Qed.

(** The payload bits of share [j]: one byte for each polynomial, the
    first polynomial last. *)
Definition payloadBits (polys : seq (seq Z)) (j : Z) : jsstring :=
  flatten (rev [seq byteBits (evalPoly poly j) | poly <- polys]).

Definition polysFor (t : Z) (vs : seq Z) (polys : seq (seq Z)) : Prop :=
  [seq nth 0%Z poly 0 | poly <- polys] = vs
  /\ all (fun poly => (size poly == Z.to_nat t) && all isByte poly) polys.

Lemma payloadBits_cons poly polys j :
  payloadBits (poly :: polys) j = payloadBits polys j ++ byteBits (evalPoly poly j).
Proof.
by rewrite /payloadBits map_cons rev_cons -cats1 flatten_cat; congr (_ ++ _).
Qed.

Lemma evalPoly_byte poly j : all isByte poly -> isByte j -> isByte (evalPoly poly j).
Proof. by move=> Hp Hj; rewrite evalPoly_field //; apply: gfvalP. Qed.

Lemma toString16_nonempty j : isShareId j -> toString (Some j) 16 != [::].
Proof.
move=> Hj; have Hb := isShareId_byte Hj.
have H : all (fun j => toString (Some j) 16 != [::]) bytes by vm_compute.
exact: (all_bytesP H Hb).
Qed.

Lemma keepOrId_idem xj j : isShareId j -> keepOrId (keepOrId xj j) j = keepOrId xj j.
Proof.
move=> /toString16_nonempty; rewrite /keepOrId.
by case: xj => [[|c s]|] //; case: (toString _ _).
Qed.

Lemma shareChunks_spec fuel vs n t rnd pos (gx gy : Z -> option jsstring) :
  all isByte vs -> (1 <= t)%Z -> (n <= 255)%Z ->
  okOrStarved fuel rnd
    (shareChunks fuel [seq Some v | v <- vs] n t rnd pos
       [seq gx j | j <- idsTo n] [seq gy j | j <- idsTo n])
    (fun out => exists2 polys, polysFor t vs polys
       & out = ([seq (if vs is [::] then gx j else keepOrId (gx j) j) | j <- idsTo n],
                [seq (if vs is [::] then gy j
                      else Some (payloadBits polys j ++ odflt [::] (gy j)))
                | j <- idsTo n])).
Proof.
move=> Hvs Ht Hn; elim: vs Hvs pos gx gy => [|v vs IH] Hvs pos gx gy.
  by left; eexists; first by []; exists [::].
move: Hvs => /= /andP [Hv Hvs].
apply: okOrStarved_bind (calculateRandomizedShares_spec fuel rnd pos Hv Ht Hn) _.
move=> [subShares pos'] /= [poly -> [Hhead Hsize Hpoly]].
have Hw : forall j, isByte (evalPoly poly j) -> True by [].
have Hids := idsTo_shareId Hn.
set w := fun j => if isByte j then evalPoly poly j else 0%Z.
have Ew : [seq Point j (Some (evalPoly poly j)) | j <- idsTo n]
          = [seq Point j (Some (w j)) | j <- idsTo n].
  apply/eq_in_map => j /(allP Hids) /isShareId_byte Hj.
  by rewrite /w Hj.
have Hwb : forall j, isByte (w j).
  by move=> j; rewrite /w; case: ifP => // Hj; apply: evalPoly_byte.
rewrite Ew collectSubSharesE // [bind (Ok _) _]/=.
case: (IH Hvs pos' (fun j => keepOrId (gx j) j)
          (fun j => Some (byteBits (w j) ++ odflt [::] (gy j))))
  => [[out -> [polys [Hheads Hall] ->]]|[-> Hstarved]]; last by right.
left; eexists; first by [].
exists (poly :: polys).
  by split; rewrite /= ?Hheads ?Hhead // Hsize eqxx Hpoly Hall.
congr (_, _); apply/eq_in_map => j /(allP Hids) Hj.
  by case: (vs) => [|? ?] //; rewrite keepOrId_idem.
have Ej : w j = evalPoly poly j by rewrite /w (isShareId_byte Hj).
rewrite payloadBits_cons -Ej.
case: (vs) (polys) Hheads => [|? ?] [|? ?] // _.
by rewrite -catA.
Qed.

(** The two hexadecimal digits of a share id, and the hexadecimal
    payload of a share. *)
Definition idString (j : Z) : jsstring :=
  if padLeft (toString (Some j) 16) 2 is Ok s then s else [::].

Definition payloadHex (bits : jsstring) : jsstring :=
  if binaryToHexadecimal bits is Ok h then h else [::].

Definition shareString (polys : seq (seq Z)) (j : Z) : jsstring :=
  idString j ++ payloadHex (payloadBits polys j).

Arguments idString : simpl never.
Arguments payloadHex : simpl never.
Arguments payloadBits : simpl never.

Lemma idString_facts j :
  isShareId j ->
  [/\ parseInt (toString (Some j) 16) 16 = Some j,
      padLeft (toString (Some j) 16) 2 = Ok (idString j),
      size (idString j) = 2, all isHexChar (idString j)
    & shareIdOf (idString j) = j].
Proof.
move=> Hj; have Hb := isShareId_byte Hj.
have H : all (fun j => (j =? 0)%Z ||
    [&& parseInt (toString (Some j) 16) 16 == Some j,
        okIs (padLeft (toString (Some j) 16) 2) (idString j),
        size (idString j) == 2, all isHexChar (idString j)
      & shareIdOf (idString j) == j]) bytes by vm_compute.
have := all_bytesP H Hb.
have -> /= : (j =? 0)%Z = false by apply/Z.eqb_neq; move/isShareIdP: Hj; lia.
by move=> /and5P [/eqP H1 /okIsP H2 /eqP H3 H4 /eqP H5]; split.
Qed.

Lemma shareIdOf_cat s rest : size s = 2 -> shareIdOf (s ++ rest) = shareIdOf s.
Proof. by case: s => [|c0 [|c1 [|c2 s]]]. Qed.

Lemma payloadHexE bits :
  all isBin bits -> binaryToHexadecimal bits = Ok (payloadHex bits)
                    /\ all isHexChar (payloadHex bits).
Proof. by move=> /binaryToHexadecimal_bin [h E Hh]; rewrite /payloadHex E. Qed.

Lemma buildShareStringsE (ids : seq Z) (bitsOfId : Z -> jsstring) :
  all isShareId ids -> (forall j, all isBin (bitsOfId j)) ->
  buildShareStrings [seq Some (toString (Some j) 16) | j <- ids]
                    [seq Some (bitsOfId j) | j <- ids]
  = Ok [seq idString j ++ payloadHex (bitsOfId j) | j <- ids].
Proof.
move=> Hids Hbits; elim: ids Hids => [|j ids IH] //.
rewrite [all _ _]/= => /andP [Hj Hids].
have [Ep El _ _ _] := idString_facts Hj.
have [Eh _] := payloadHexE (Hbits j).
rewrite !map_cons /buildShareStrings -/buildShareStrings Ep /maxShares.
have -> : (j <? 1)%Z || (255 <? j)%Z = false.
  by move/isShareIdP: Hj => Hj; apply/orP => -[/Z.ltb_lt|/Z.ltb_lt]; lia.
by rewrite [odflt _ (Some (toString _ _))]/= El [odflt _ (Some (bitsOfId j))]/= Eh IH.
Qed.

Lemma payloadBits_bin polys j : all isBin (payloadBits polys j).
Proof. exact: columns_bin. Qed.

(** The pad length [generateShares] works with: the argument when it is
    truthy, 128 otherwise, provided it is an integer in [0, 1024]. *)
Definition effectivePad (padLength : jsvalue) : option Z :=
  match integerAtLeast 0 (if jsTruthy padLength then padLength else JNumber (Int 128)) with
  | Some pad => if (1024 <? pad)%Z then None else Some pad
  | None => None
  end.

Lemma effectivePad_range padLength pad :
  effectivePad padLength = Some pad -> (1 <= pad <= 1024)%Z.
Proof.
rewrite /effectivePad; case Ht: (jsTruthy padLength); last by case=> <-.
case: padLength Ht => [||b|[|z|]|s|] //= Hz.
case: Z.ltb_spec => // H0; case: Z.ltb_spec => // H1 [<-].
by move/Z.eqb_spec: Hz; lia.
Qed.

Lemma generateSharesE fuel rnd secret n t padLength :
  (2 <= t <= n)%Z -> (n <= 255)%Z ->
  generateShares fuel rnd (JString secret) (JNumber (Int n)) (JNumber (Int t)) padLength =
  match effectivePad padLength with
  | None => Throw BadPadLength
  | Some pad =>
      let* bits := hexadecimalToBinary secret in
      let* chunks := splitNumStringToIntArray ("1"%char :: bits) (Some pad) in
      let holes := nseq (Z.to_nat n) None in
      let* (x, y) := shareChunks fuel chunks n t rnd 0 holes holes in
      buildShareStrings x y
  end.
Proof.
move=> Ht Hn; rewrite /generateShares /newArrayThrows /integerAtLeast /effectivePad /maxShares.
have -> : (n <? 0)%Z = false by apply/Z.ltb_ge; lia.
have -> : (2 ^ 32 <=? n)%Z = false by apply/Z.leb_gt; lia.
have -> : (n <? 2)%Z = false by apply/Z.ltb_ge; lia.
have -> : (255 <? n)%Z = false by apply/Z.ltb_ge; lia.
have -> : (t <? 2)%Z = false by apply/Z.ltb_ge; lia.
have -> : (255 <? t)%Z = false by apply/Z.ltb_ge; lia.
have -> : (n <? t)%Z = false by apply/Z.ltb_ge; lia.
rewrite [false || false]/=.
case: (if jsTruthy _ then _ else _) => [||b|[|z|]|s|] //.
by rewrite /integerAtLeast; case: (z <? 0)%Z => //; case: (1024 <? z)%Z.
Qed.

(** The size of a string of size [len] once [splitNumStringToIntArray] has
    padded it to a multiple of [pad], and the number of chunks it is cut in. *)
Definition paddedLength (len : nat) (pad : Z) : nat :=
  if (pad =? 1)%Z then len else (padCount len pad + len)%N.

Definition chunkCount (len : nat) (pad : Z) : nat := (paddedLength len pad + 7) %/ 8.

Lemma chunkCountP (len v : nat) : (len <= 8 * v < len + 8)%N -> v = (len + 7) %/ 8.
Proof.
move=> /andP [H1 H2]; apply/eqP; rewrite eqn_leq; apply/andP; split.
  by rewrite leq_divRL // mulnC; nat_lia.
by rewrite -ltnS ltn_divLR // mulnC; nat_lia.
Qed.

Lemma splitNum_padded bits pad :
  (1 <= pad <= 1024)%Z -> all isBin bits -> bits != [::] ->
  exists vs k,
    [/\ splitNumStringToIntArray bits (Some pad) = Ok [seq Some v | v <- vs],
        all isByte vs, size vs = chunkCount (size bits) pad
      & flatten (rev [seq byteBits v | v <- vs]) = zeros k ++ bits].
Proof.
move=> Hpad Hb Hne.
have [k Ek Sk] : exists2 k, padLeft bits pad = Ok (zeros k ++ bits)
                          & (k + size bits)%N = paddedLength (size bits) pad.
  have [->|Hp] := Z.eq_dec pad 1; first by exists 0%N.
  exists (padCount (size bits) pad); first by apply: padLeftE; lia.
  by rewrite /paddedLength; have -> : (pad =? 1)%Z = false by apply/Z.eqb_neq.
have Hb' : all isBin (zeros k ++ bits) by rewrite all_cat Hb andbT all_nseq orbT.
have Hne' : zeros k ++ bits != [::] by case: (zeros k) => //; case: (bits) Hne.
have [vs [E Hvs Hsize Ef]] := splitNum_chunks Hb' Hne'.
exists vs, (8 * size vs - size (zeros k ++ bits) + k)%N; split=> //.
- rewrite /splitNumStringToIntArray.
  have -> /= : truthy (Some pad) by rewrite /= ; apply/negP => /Z.eqb_eq; lia.
  by rewrite Ek /= -E.
- by apply: chunkCountP; rewrite -Sk; move: Hsize; rewrite size_cat size_nseq.
- by rewrite Ef catA /zeros -nseqD.
Qed.

Lemma holesE n : nseq (Z.to_nat n) (@None (seq ascii)) = [seq None | j <- idsTo n].
Proof.
rewrite /idsTo -map_comp; move: 1%N.
by elim: (Z.to_nat n) => [|k IH] m //=; rewrite -IH.
Qed.

(** The shares [generateShares] returns, from the polynomials it drew. *)
Definition sharesOf (secret : jsstring) (n t pad : Z) (shares : seq jsstring) : Prop :=
  exists vs polys k,
    [/\ all isByte vs,
        size vs = chunkCount (4 * size secret).+1 pad,
        flatten (rev [seq byteBits v | v <- vs])
          = zeros k ++ "1"%char :: flatten [seq hexNibble c | c <- secret],
        polysFor t vs polys
      & shares = [seq shareString polys j | j <- idsTo n]].

Lemma size_hexBits (secret : jsstring) :
  size (flatten [seq hexNibble c | c <- secret]) = (4 * size secret)%N.
Proof.
elim: secret => [|c secret IH] //.
by rewrite /= IH mulnS.
Qed.

Lemma generateShares_spec fuel rnd secret n t padLength pad :
  all isHexChar secret -> (2 <= t <= n)%Z -> (n <= 255)%Z ->
  effectivePad padLength = Some pad ->
  okOrStarved fuel rnd
    (generateShares fuel rnd (JString secret) (JNumber (Int n)) (JNumber (Int t)) padLength)
    (sharesOf secret n t pad).
Proof.
move=> Hs Ht Hn Hpad; rewrite generateSharesE // Hpad hexadecimalToBinaryE Hs.
rewrite [bind (Ok _) _]/=.
set B := flatten _.
have HB : all isBin ("1"%char :: B).
  rewrite /= /B; apply/allP => c /flattenP [g /mapP [h _ ->]].
  by move/(allP (bitsOf_bin 4 (hexValue h))).
have [vs [k [-> Hvs Svs Ef]]] := splitNum_padded (effectivePad_range Hpad) HB isT.
have Hne : vs != [::] by case: (vs) Ef => //; case: (zeros k).
rewrite [bind (Ok _) _]/= holesE.
have Ht1 : (1 <= t)%Z by lia.
apply: okOrStarved_bind (shareChunks_spec fuel rnd 0 _ _ Hvs Ht1 Hn) _.
move=> [x y] [polys Hpolys [-> ->]].
have Hids := idsTo_shareId Hn.
have -> : [seq (if vs is [::] then None else keepOrId None j) | j <- idsTo n]
          = [seq Some (toString (Some j) 16) | j <- idsTo n].
  by case: (vs) Hne.
have -> : [seq (if vs is [::] then None else Some (payloadBits polys j ++ odflt [::] None))
          | j <- idsTo n] = [seq Some (payloadBits polys j) | j <- idsTo n].
  by case: (vs) Hne => // v vs' _; apply/eq_map => j /=; rewrite cats0.
rewrite (buildShareStringsE Hids (payloadBits_bin polys)).
left; eexists; first by []; exists vs, polys, k; split=> //.
by rewrite Svs [size (_ :: _)]/= size_hexBits.
Qed.

(** ** Round trip: the shares decoded *)

Lemma digitChar_value v : (0 <= v < 16)%Z -> hexValue (digitChar v) = v.
Proof.
move=> Hv; have Hb : isByte v by apply/isByteP; lia.
have H : all (fun v => (16 <=? v)%Z || (hexValue (digitChar v) == v)) bytes by vm_compute.
have := all_bytesP H Hb.
by case: Z.leb_spec => [?|_ /eqP] //; lia.
Qed.

Lemma payloadHex_nibbles ns :
  all isNibble ns -> payloadHex (flatten ns) = [seq digitChar (binValue g) | g <- ns].
Proof. by move=> Hns; rewrite /payloadHex binaryToHexadecimal_nibbles. Qed.

Lemma hexNibbles_payloadHex ns :
  all isNibble ns -> flatten [seq hexNibble c | c <- payloadHex (flatten ns)] = flatten ns.
Proof.
move=> Hns; rewrite payloadHex_nibbles // -map_comp; congr flatten.
rewrite -[RHS]map_id; apply/eq_in_map => g /(allP Hns) /andP [Hg /eqP Sg] /=.
have Hv : (0 <= binValue g < 16)%Z by have := binValue_bound g; rewrite Sg.
by rewrite /hexNibble digitChar_value // -Sg bitsOf_binValue.
Qed.

Lemma size_payloadBits polys j : size (payloadBits polys j) = (4 * (2 * size polys))%N.
Proof.
elim: polys => [|p polys IH] //.
by rewrite payloadBits_cons size_cat IH size_byteBits /=; nat_lia.
Qed.

Lemma splitLoop_payloadBits polys j :
  polys != [::] -> all (all isByte) polys -> isByte j ->
  splitLoop (size (payloadBits polys j)) (payloadBits polys j)
            (jsLength (payloadBits polys j)) [::]
  = [seq Some (evalPoly p j) | p <- polys].
Proof.
move=> Hpolys0 Hpolys Hj.
have Hne : [seq evalPoly p j | p <- polys] != [::] by case: (polys) Hpolys0.
have Hb : all isByte [seq evalPoly p j | p <- polys].
  by rewrite all_map; apply: sub_all Hpolys => q Hq /=; apply: evalPoly_byte.
have := splitNum_bits Hb Hne.
by rewrite splitNum_None -!map_comp => -[].
Qed.

Lemma shareString_facts polys j :
  isShareId j -> polys != [::] -> all (all isByte) polys ->
  [/\ wellFormedShare (shareString polys j),
      shareIdOf (shareString polys j) = j,
      payloadOf (shareString polys j) = [seq Some (evalPoly p j) | p <- polys]
    & size (shareString polys j) = (2 + 2 * size polys)%N].
Proof.
move=> Hj Hne Hpolys.
have [_ _ Sid Hid Eid] := idString_facts Hj.
have Hbin := payloadBits_bin polys j.
have [ns Ens Hns] := nibbles_split Hbin (size_payloadBits polys j).
have [_ Hhex] := payloadHexE Hbin.
have Sns : size ns = (2 * size polys)%N.
  have := size_flatten_nibbles Hns; rewrite -Ens size_payloadBits => /eqP.
  by rewrite eqn_mul2l /= => /eqP.
have Eshare : shareIdOf (shareString polys j) = j by rewrite /shareString shareIdOf_cat.
have Esize : size (shareString polys j) = (2 + 2 * size polys)%N.
  by rewrite /shareString size_cat Sid Ens payloadHex_nibbles // size_map Sns.
split=> //.
- rewrite /wellFormedShare Eshare /shareFormat Esize /shareString all_cat Hid Hhex.
  have -> /= : (2 < 2 + 2 * size polys)%N by case: (polys) Hne.
  by move/isShareIdP: Hj => [/Z.leb_le -> /Z.leb_le ->].
- rewrite /payloadOf /shareString drop_size_cat // Ens hexNibbles_payloadHex // -Ens.
  exact: (splitLoop_payloadBits Hne Hpolys (isShareId_byte Hj)).
Qed.

(** The matrix [y] of [deriveSecret] once the shares with ids [xs] are in:
    one row for each polynomial, its values at the ids. *)
Definition valuesAt (polys : seq (seq Z)) (xs : seq Z) : seq (seq num) :=
  if xs is [::] then [::]
  else [seq [seq Some (evalPoly p x) | x <- xs] | p <- polys].

Lemma set_nth_size (T : Type) (x0 : T) (s : seq T) (v : T) :
  set_nth x0 s (size s) v = rcons s v.
Proof. by elim: s => [|a s IH] //=; rewrite IH. Qed.

Lemma storeColumn_nil (T : Type) (g : T -> num) (polys : seq T) :
  storeColumn [::] 0 [seq g p | p <- polys] = [seq [:: g p] | p <- polys].
Proof. by elim: polys => [|p polys IH] //=; rewrite IH. Qed.

Lemma storeColumn_rows (T : Type) (row : T -> seq num) (g : T -> num) k (polys : seq T) :
  (forall p, size (row p) = k) ->
  storeColumn [seq row p | p <- polys] k [seq g p | p <- polys]
  = [seq rcons (row p) (g p) | p <- polys].
Proof.
by move=> Hrow; elim: polys => [|p polys IH] //=; rewrite IH -{1}(Hrow p) set_nth_size.
Qed.

Lemma valuesAt_cons polys x xs :
  valuesAt polys (x :: xs) = [seq [seq Some (evalPoly p x') | x' <- x :: xs] | p <- polys].
Proof. by []. Qed.

Lemma storeColumn_valuesAt polys xs j :
  storeColumn (valuesAt polys xs) (size xs) [seq Some (evalPoly p j) | p <- polys]
  = valuesAt polys (rcons xs j).
Proof.
case: xs => [|x xs]; first by rewrite /valuesAt storeColumn_nil.
rewrite rcons_cons !valuesAt_cons -rcons_cons storeColumn_rows => [p|].
  by rewrite size_map.
by apply/eq_map => p; rewrite map_rcons.
Qed.

Lemma deriveNext_shares polys xs js :
  polys != [::] -> all (all isByte) polys -> all isShareId js -> uniq (xs ++ js) ->
  foldl deriveNext (xs, valuesAt polys xs) [seq shareString polys j | j <- js]
  = (xs ++ js, valuesAt polys (xs ++ js)).
Proof.
move=> Hne Hpolys; elim: js xs => [|j js IH] xs; first by rewrite cats0.
rewrite [all _ _]/= => /andP [Hj Hjs] Huniq.
have [_ Eid Epay _] := shareString_facts Hj Hne Hpolys.
have Hnotin : j \notin xs.
  by move: Huniq; rewrite cat_uniq /= negb_or => /and3P [_ /andP [H _] _].
rewrite map_cons [foldl _ _ (_ :: _)]/= /deriveNext [(_, _).1]/= [(_, _).2]/=.
rewrite Eid (negbTE Hnotin) Epay storeColumn_valuesAt IH ?cat_rcons //.
Qed.

Lemma subset_map (T U : eqType) (f : T -> U) (l : seq T) (sub : seq U) :
  {subset sub <= [seq f x | x <- l]} ->
  exists2 js, sub = [seq f j | j <- js] & {subset js <= l}.
Proof.
elim: sub => [|s sub IH] Hsub; first by exists [::].
have /mapP [j Hj Ej] : s \in [seq f x | x <- l] by apply: Hsub; rewrite mem_head.
have [|js Ejs Hjs] := IH; first by move=> x Hx; apply: Hsub; rewrite inE Hx orbT.
exists (j :: js); first by rewrite /= -Ej -Ejs.
by move=> x; rewrite inE => /orP [/eqP ->|/Hjs].
Qed.

Lemma indexOf_marker k rest :
  jsSlice (zeros k ++ "1"%char :: rest) (indexOf (zeros k ++ "1"%char :: rest) "1"%char + 1) None
  = rest.
Proof.
set r := zeros k ++ _.
have Hin : "1"%char \in r by rewrite /r mem_cat inE eqxx orbT.
have Ei : index "1"%char r = k.
  rewrite /r index_cat; case: ifP => [/nseqP [] //|_].
  by rewrite size_nseq /= ?eqxx addn0.
rewrite /indexOf Hin Ei.
have -> : (Z.of_nat k + 1 = Z.of_nat k.+1)%Z by lia.
rewrite jsSlice_from; first by rewrite /r size_cat size_nseq /=; nat_lia.
by rewrite /r -cat_rcons drop_size_cat // size_rcons size_nseq.
Qed.

(** [deriveSecret] on enough distinct shares of a secret. *)
Lemma deriveSecret_sharesOf secret n t pad shares sub :
  all isHexChar secret -> (2 <= t <= n)%Z -> (n <= 255)%Z ->
  sharesOf secret n t pad shares ->
  uniq sub -> {subset sub <= shares} -> (Z.to_nat t <= size sub)%N ->
  deriveSecret sub = Ok [seq toLowerCase c | c <- secret].
Proof.
move=> Hs Ht Hn [vs [polys [k [Hvs _ Ebits [Eheads Hall] ->]]]] Huniq Hsub Hsize.
have [js Ejs Hjs] := subset_map Hsub.
have Hids : all isShareId js.
  by apply/allP => j /Hjs; apply: (allP (idsTo_shareId Hn)).
have Ujs : uniq js by move: Huniq; rewrite Ejs; apply: map_uniq.
have Hpolys : all (all isByte) polys by apply: sub_all Hall => p /andP [].
have Hne : polys != [::].
  by case: (polys) Eheads Ebits => // <-; case: (zeros k).
have Hw : all wellFormedShare sub.
  rewrite Ejs all_map; apply/allP => j /(allP Hids) Hj /=.
  by have [] := shareString_facts Hj Hne Hpolys.
rewrite /deriveSecret deriveLoopE Hw Ejs.
rewrite (@deriveNext_shares polys [::] js) // [bind (Ok _) _]/=.
rewrite interpolateColumnsE cats0 [bind (Ok _) _]/=.
have Sjs : (Z.to_nat t <= size js)%N by move: Hsize; rewrite Ejs size_map.
have -> : [seq byteBits (lagrange [seq Some v | v <- js] yi) | yi <- valuesAt polys js]
          = [seq byteBits v | v <- vs].
  rewrite -Eheads /valuesAt.
  case Ej: js => [|j0 js']; first by move: Sjs; rewrite Ej leqn0 => /eqP; lia.
  rewrite -Ej -!map_comp; apply/eq_in_map => p /(allP Hall) /andP [/eqP Sp Hp] /=.
  by rewrite lagrange_evalPoly // Sp.
rewrite Ebits indexOf_marker.
have := hex_round_trip Hs.
by rewrite hexadecimalToBinaryE Hs.
Qed.

(** ** Generation and reconstruction together *)

Lemma size_idsTo n : size (idsTo n) = Z.to_nat n.
Proof. by rewrite /idsTo size_map size_iota. Qed.

Lemma uniq_idsTo n : uniq (idsTo n).
Proof. by rewrite map_inj_uniq ?iota_uniq //; exact: Nat2Z.inj. Qed.

Lemma nth_idsTo n i : (i < Z.to_nat n)%N -> nth 0%Z (idsTo n) i = Z.of_nat i.+1.
Proof. by move=> Hi; rewrite (nth_map 0%N) ?size_iota // nth_iota. Qed.

Lemma sharesOf_polys secret n t pad shares :
  sharesOf secret n t pad shares ->
  exists2 polys,
    [/\ polys != [::], all (all isByte) polys
      & size polys = chunkCount (4 * size secret).+1 pad]
    & shares = [seq shareString polys j | j <- idsTo n].
Proof.
move=> [vs [polys [k [Hvs Svs Ebits [Eheads Hall] ->]]]]; exists polys => //; split.
- by case: (polys) Eheads Ebits => // <-; case: (zeros k).
- by apply: sub_all Hall => p /andP [].
- by rewrite -Svs -Eheads size_map.
Qed.

Lemma sharesOf_uniq secret n t pad shares :
  (n <= 255)%Z -> sharesOf secret n t pad shares ->
  size shares = Z.to_nat n /\ uniq shares.
Proof.
move=> Hn /sharesOf_polys [polys [Hne Hpolys _] ->].
rewrite size_map size_idsTo; split=> //.
rewrite map_inj_in_uniq ?uniq_idsTo // => i j Hi Hj /(congr1 shareIdOf).
have [_ -> _ _] := shareString_facts (allP (idsTo_shareId Hn) _ Hi) Hne Hpolys.
by have [_ -> _ _] := shareString_facts (allP (idsTo_shareId Hn) _ Hj) Hne Hpolys.
Qed.

(** Round trip: when the arguments are accepted and the entropy source is
    fair, [generateShares] returns [totalShares] pairwise distinct shares,
    and [deriveSecret], applied to any [requiredShares] or more of them
    without repetition, in any order, returns the secret in lower case. *)
Theorem generateShares_round_trip fuel rnd secret n t padLength :
  all isHexChar secret -> (2 <= t <= n)%Z -> (n <= 255)%Z ->
  isSome (effectivePad padLength) -> fairEntropy fuel rnd ->
  exists2 shares,
    generateShares fuel rnd (JString secret) (JNumber (Int n)) (JNumber (Int t)) padLength
      = Ok shares
    & [/\ size shares = Z.to_nat n, uniq shares
        & forall sub, uniq sub -> {subset sub <= shares} -> (Z.to_nat t <= size sub)%N ->
            deriveSecret sub = Ok [seq toLowerCase c | c <- secret]].
Proof.
move=> Hs Ht Hn; case Hpad: (effectivePad padLength) => [pad|] // _ Hfair.
have [shares E Hshares] := okOrStarved_fair (generateShares_spec fuel rnd Hs Ht Hn Hpad) Hfair.
exists shares => //; have [Hsize Huniq] := sharesOf_uniq Hn Hshares.
by split=> // sub; apply: deriveSecret_sharesOf Hshares.
Qed.

Lemma generateShares_round_trip_witness :
  exists2 shares,
    generateShares 1 (fun=> x01) (JString (str "ab")) (JNumber (Int 3)) (JNumber (Int 2))
        JUndefined
      = Ok shares
    & [/\ size shares = Z.to_nat 3, uniq shares
        & forall sub, uniq sub -> {subset sub <= shares} -> (Z.to_nat 2 <= size sub)%N ->
            deriveSecret sub = Ok [seq toLowerCase c | c <- str "ab"]].
Proof.
apply: (@generateShares_round_trip 1 (fun=> x01) (str "ab") 3 2 JUndefined) => //.
by move=> pos; exists 0%N.
Defined.

(** Shape of the shares: when the arguments are accepted and the entropy
    source is fair, the share at index [i] is well formed, bears the id
    [i + 1], and holds two hexadecimal digits for the id and two for each
    chunk of the secret, marked and padded to a multiple of the pad length
    in force (128 when [padLength] is omitted or [0]). *)
Theorem generateShares_shape fuel rnd secret n t padLength pad :
  all isHexChar secret -> (2 <= t <= n)%Z -> (n <= 255)%Z ->
  effectivePad padLength = Some pad -> fairEntropy fuel rnd ->
  exists2 shares,
    generateShares fuel rnd (JString secret) (JNumber (Int n)) (JNumber (Int t)) padLength
      = Ok shares
    & size shares = Z.to_nat n
      /\ forall i, (i < Z.to_nat n)%N ->
           [/\ wellFormedShare (nth [::] shares i),
               shareIdOf (nth [::] shares i) = Z.of_nat i.+1
             & size (nth [::] shares i)
               = (2 + 2 * chunkCount (4 * size secret).+1 pad)%N].
Proof.
move=> Hs Ht Hn Hpad Hfair.
have [shares E Hshares] := okOrStarved_fair (generateShares_spec fuel rnd Hs Ht Hn Hpad) Hfair.
exists shares => //; have [Hsize _] := sharesOf_uniq Hn Hshares.
split=> // i Hi.
have [polys [Hne Hpolys Sp] Eshares] := sharesOf_polys Hshares.
have Hj : isShareId (Z.of_nat i.+1) by apply/isShareIdP; nat_lia.
rewrite Eshares (nth_map 0%Z) ?size_idsTo // nth_idsTo // -Sp.
by have [H1 H2 _ H3] := shareString_facts Hj Hne Hpolys.
Qed.

Lemma generateShares_shape_witness :
  exists2 shares,
    generateShares 1 (fun=> x01) (JString (str "ab")) (JNumber (Int 3)) (JNumber (Int 2))
        (JNumber (Int 0))
      = Ok shares
    & size shares = Z.to_nat 3
      /\ forall i, (i < Z.to_nat 3)%N ->
           [/\ wellFormedShare (nth [::] shares i),
               shareIdOf (nth [::] shares i) = Z.of_nat i.+1
             & size (nth [::] shares i)
               = (2 + 2 * chunkCount (4 * size (str "ab")).+1 128)%N].
Proof.
apply: (@generateShares_shape 1 (fun=> x01) (str "ab") 3 2 (JNumber (Int 0)) 128) => //.
by move=> pos; exists 0%N.
Defined.

(** The arguments [generateShares] accepts: a string of hexadecimal digits,
    integers [2 <= requiredShares <= totalShares <= 255], and a pad length
    that is falsy or an integer in [1, 1024]. *)
Definition acceptedArguments (secret totalShares requiredShares padLength : jsvalue)
    : bool :=
  match secret, totalShares, requiredShares with
  | JString s, JNumber (Int n), JNumber (Int t) =>
      [&& all isHexChar s, (2 <=? t)%Z, (t <=? n)%Z, (n <=? 255)%Z
        & isSome (effectivePad padLength)]
  | _, _, _ => false
  end.

(** Errors of [generateShares]: it throws exactly when its arguments are not
    accepted, whatever the entropy source. *)
Theorem generateShares_raises_iff fuel rnd secret totalShares requiredShares padLength :
  is_throw (generateShares fuel rnd secret totalShares requiredShares padLength)
  = ~~ acceptedArguments secret totalShares requiredShares padLength.
Proof.
case: secret => [||b|nn|s|]; try by rewrite /generateShares; case: newArrayThrows.
case: totalShares => [||b|[|n|]|s'|] //.
case: requiredShares => [||b|[|t|]|s'|];
  try by rewrite /generateShares /=; do ?[case: ifP => //].
rewrite /acceptedArguments.
have [[Ht Hn]|Hbad] : ((2 <= t <= n)%Z /\ (n <= 255)%Z) \/
                      ~ ((2 <= t <= n)%Z /\ (n <= 255)%Z) by lia.
  have -> : (2 <=? t)%Z by apply/Z.leb_le; lia.
  have -> : (t <=? n)%Z by apply/Z.leb_le; lia.
  have -> : (n <=? 255)%Z by apply/Z.leb_le.
  case Hs: (all isHexChar s); case Hpad: (effectivePad padLength) => [pad|].
  - by rewrite (okOrStarved_not_throw (generateShares_spec fuel rnd Hs Ht Hn Hpad)).
  - by rewrite generateSharesE // Hpad.
  - by rewrite generateSharesE // Hpad hexadecimalToBinaryE Hs.
  - by rewrite generateSharesE // Hpad.
have -> : [&& all isHexChar s, (2 <=? t)%Z, (t <=? n)%Z, (n <=? 255)%Z
             & isSome (effectivePad padLength)] = false.
  by apply/negP => /and5P [_ /Z.leb_le ? /Z.leb_le ? /Z.leb_le ? _]; lia.
rewrite /generateShares /newArrayThrows /integerAtLeast /maxShares.
case: (Z.ltb_spec n 0) => ? //; case: (Z.leb_spec (2 ^ 32) n) => ? //.
rewrite [false || false]/=.
case: (Z.ltb_spec n 2) => ? //; case: (Z.ltb_spec 255 n) => ? //.
case: (Z.ltb_spec t 2) => ? //; case: (Z.ltb_spec 255 t) => ? //.
by case: (Z.ltb_spec n t) => ? //; lia.
Qed.

(** ** The field tables and the arithmetic built on them *)

(** The tables are inverse to each other on [1, 255]: [exp[log[a]] = a] and
    [log[exp[a]] = a]; [log[0]] is left undefined. *)
Theorem tables_inverse (a : Z) :
  (1 <= a <= 255)%Z ->
  [/\ arrGet calculatedExponents (arrGet calculatedLogarithms (Some a)) = Some a,
      arrGet calculatedLogarithms (arrGet calculatedExponents (Some a)) = Some a
    & arrGet calculatedLogarithms (Some 0%Z) = None].
Proof.
move=> Ha; have Hb : isByte a by apply/isByteP; lia.
have H : all (fun a => (a =? 0)%Z ||
    (arrGet calculatedExponents (arrGet calculatedLogarithms (Some a)) == Some a)
    && (arrGet calculatedLogarithms (arrGet calculatedExponents (Some a)) == Some a))
  bytes by vm_compute.
have := all_bytesP H Hb.
have -> /= : (a =? 0)%Z = false by apply/Z.eqb_neq; lia.
by move=> /andP [/eqP H1 /eqP H2]; split.
Qed.

Lemma tables_inverse_witness :
  [/\ arrGet calculatedExponents (arrGet calculatedLogarithms (Some 1%Z)) = Some 1%Z,
      arrGet calculatedLogarithms (arrGet calculatedExponents (Some 1%Z)) = Some 1%Z
    & arrGet calculatedLogarithms (Some 0%Z) = None].
Proof. by apply: (@tables_inverse 1%Z); lia. Defined.

Lemma mul_some a b : isByte a -> isByte b -> mul a b = Some (mulZ a b).
Proof. by move=> Ha Hb; rewrite /mulZ mul_schoolbook. Qed.

(** The product the tables define is associative on bytes, has [1] as its
    unit, and every non-zero byte has an inverse. *)
Theorem mul_assoc_unit_inverse (a b c : Z) :
  isByte a -> isByte b -> isByte c ->
  [/\ obind (mul a) (mul b c) = obind (fun ab => mul ab c) (mul a b),
      mul 1 a = Some a
    & a <> 0%Z -> exists2 a', isByte a' & mul a' a = Some 1%Z].
Proof.
move=> Ha Hb Hc; split.
- rewrite (mul_some Hb Hc) (mul_some Ha Hb) /=.
  by rewrite !mul_some ?mulZ_byte // mulZA.
- by rewrite mul_some // mul1Z.
- move=> Hn; exists (invZ a); first exact: invZ_byte.
  by rewrite mul_some ?invZ_byte // mulVZ.
Qed.

Lemma mul_assoc_unit_inverse_witness :
  [/\ obind (mul 3) (mul 7 200) = obind (fun ab => mul ab 200) (mul 3 7),
      mul 1 3 = Some 3%Z
    & 3%Z <> 0%Z -> exists2 a', isByte a' & mul a' 3 = Some 1%Z].
Proof. exact: (@mul_assoc_unit_inverse 3 7 200). Defined.

(** [calculateFofX] is Horner's rule in GF(2^8): on byte coefficients and
    any [x] in [0, 255] it returns the value of the polynomial at [x]; at
    [x = 0], where [log] is undefined, that is the constant term. *)
Theorem calculateFofX_horner (coefficients : seq Z) (x : Z) :
  all isByte coefficients -> (0 <= x <= 255)%Z ->
  calculateFofX (Some x) [seq Some c | c <- coefficients] = Some (evalPoly coefficients x)
  /\ calculateFofX (Some 0%Z) [seq Some c | c <- coefficients]
     = Some (nth 0%Z coefficients 0).
Proof.
move=> Hcs Hx.
have H0 : calculateFofX (Some 0%Z) [seq Some c | c <- coefficients]
          = Some (evalPoly coefficients 0).
  rewrite /calculateFofX /calculateFofX_with.
  have -> : arrGet calculatedLogarithms (Some 0%Z) = None by [].
  case: coefficients Hcs => [|c cs] //= /andP [Hc _].
  rewrite /fofxStep; case: ifP => // _.
  have -> : forall z, jsAdd None z = None by [].
  by rewrite [jsRem None _]/= [arrGet _ None]/arrGet /jsXor toInt32_byte.
split; last by rewrite H0 evalPoly_at0.
have [->|Hnx] := Z.eq_dec x 0; first exact: H0.
by apply: calculateFofX_evalPoly => //; apply/isShareIdP; lia.
Qed.

Lemma calculateFofX_horner_witness :
  calculateFofX (Some 2%Z) [seq Some c | c <- [:: 77; 1; 3]%Z]
    = Some (evalPoly [:: 77; 1; 3]%Z 2)
  /\ calculateFofX (Some 0%Z) [seq Some c | c <- [:: 77; 1; 3]%Z]
     = Some (nth 0%Z [:: 77; 1; 3]%Z 0).
Proof. by apply: (@calculateFofX_horner [:: 77; 1; 3]%Z 2%Z) => //; lia. Defined.

(** [lagrange] returns an integer of [0, 255] on all arrays of integers,
    whatever their lengths, their holes and the repetitions among the
    x-coordinates. *)
Theorem lagrange_in_field (x y : seq num) : (0 <= lagrange x y <= 255)%Z.
Proof. by have /isByteP := lagrange_byte x y; lia. Qed.



(** ** Share strings: parsing *)


(** A share put together as [generateShares] does, from an id in [1, 255]
    written on two hexadecimal digits and a non-empty hexadecimal payload,
    is parsed back into that id and that payload. *)
Theorem extractShareComponents_emit (j : Z) (payload : jsstring) :
  (1 <= j <= 255)%Z -> all isHexChar payload -> payload != [::] ->
  (let* shareId := padLeft (toString (Some j) 16) 2 in
   extractShareComponents (shareId ++ payload))
  = Ok (Share.Make j payload).
Proof.
move=> /isShareIdP Hj Hp Hne.
have [_ -> Sid Hid Eid] := idString_facts Hj.
rewrite [bind (Ok _) _]/= extractShareComponentsE.
have -> : wellFormedShare (idString j ++ payload).
  rewrite /wellFormedShare /shareFormat shareIdOf_cat // Eid size_cat Sid all_cat Hid Hp.
  have -> /= : (2 < 2 + size payload)%N by case: (payload) Hne.
  by move/isShareIdP: Hj => [/Z.leb_le -> /Z.leb_le ->].
by rewrite shareIdOf_cat // Eid drop_size_cat.
Qed.

Lemma extractShareComponents_emit_witness :
  (let* shareId := padLeft (toString (Some 10%Z) 16) 2 in
   extractShareComponents (shareId ++ str "c0ffee"))
  = Ok (Share.Make 10%Z (str "c0ffee")).
Proof. by apply: (@extractShareComponents_emit 10%Z (str "c0ffee")) => //; lia. Defined.

(** ** Reconstruction: errors and letter case *)

(** The outcomes of [deriveSecret]: a hexadecimal string when every share
    is well formed; the share id error otherwise, and no other error. *)
Theorem deriveSecret_outcomes (shares : seq jsstring) :
  match deriveSecret shares with
  | Ok h => all wellFormedShare shares /\ all isHexChar h
  | Throw e => e = InvalidShareId /\ ~~ all wellFormedShare shares
  | Diverge => False
  end.
Proof.
case Hw: (all wellFormedShare shares).
  by have [h -> Hh] := deriveSecret_wellFormed Hw.
by rewrite /deriveSecret deriveLoopE Hw.
Qed.

Lemma toLowerCase_hex (c : ascii) :
  (isHexChar (toLowerCase c) = isHexChar c) * (hexValue (toLowerCase c) = hexValue c).
Proof.
have H : all (fun c => (isHexChar (toLowerCase c) == isHexChar c)
                       && (hexValue (toLowerCase c) == hexValue c)) allAscii.
  by vm_compute.
by have /andP [/eqP H1 /eqP H2] := all_asciiP H c.
Qed.

Definition lowerCase (s : jsstring) : jsstring := [seq toLowerCase c | c <- s].

Lemma lowerCase_share (share : jsstring) :
  [/\ wellFormedShare (lowerCase share) = wellFormedShare share,
      shareIdOf (lowerCase share) = shareIdOf share
    & payloadOf (lowerCase share) = payloadOf share].
Proof.
have Eid : shareIdOf (lowerCase share) = shareIdOf share.
  rewrite /shareIdOf /lowerCase.
  by case: share => [|c0 [|c1 rest]] //=; rewrite !toLowerCase_hex.
split=> //.
- rewrite /wellFormedShare Eid /shareFormat /lowerCase size_map all_map.
  by congr (_ && _ && _ && _); apply/eq_all => c /=; rewrite toLowerCase_hex.
- rewrite /payloadOf /lowerCase -map_drop -map_comp.
  have -> // : [seq (hexNibble \o toLowerCase) c | c <- drop 2 share]
               = [seq hexNibble c | c <- drop 2 share].
  by apply/eq_map => c; rewrite /= /hexNibble toLowerCase_hex.
Qed.

(** Shares are read without regard to letter case: [deriveSecret] returns
    on the shares written in lower case what it returns on the shares. *)
Theorem deriveSecret_case_insensitive (shares : seq jsstring) :
  deriveSecret [seq lowerCase share | share <- shares] = deriveSecret shares.
Proof.
rewrite /deriveSecret !deriveLoopE all_map.
have -> : all (preim lowerCase wellFormedShare) shares = all wellFormedShare shares.
  by apply/eq_all => share /=; have [-> _ _] := lowerCase_share share.
case: (all wellFormedShare shares) => //.
suff -> : forall xy, foldl deriveNext xy [seq lowerCase share | share <- shares]
                     = foldl deriveNext xy shares by [].
elim: shares => [|share shares IH] xy //=.
rewrite IH; congr (foldl _ _ _).
by rewrite /deriveNext; have [_ -> ->] := lowerCase_share share.
Qed.

(** ** String helpers: padding and the codecs *)

Lemma padCount_lt (len : nat) (m : Z) :
  (0 < m)%Z ->
  (Z.of_nat (padCount len m) < m)%Z /\ (Z.of_nat (padCount len m + len) mod m = 0)%Z.
Proof.
move=> Hm; rewrite /padCount.
set r := (Z.of_nat len mod m)%Z.
have Hr : (0 <= r < m)%Z by apply: Z.mod_pos_bound.
have Hk : (0 <= (m - r) mod m < m)%Z by apply: Z.mod_pos_bound.
have El := Z.div_mod (Z.of_nat len) m; rewrite -/r in El.
rewrite -plusE Nat2Z.inj_add Z2Nat.id; [lia|]; split; first lia.
have [E0|Hn0] := Z.eq_dec r 0.
  rewrite E0 Z.sub_0_r Z_mod_same_full Z.add_0_l El; [lia|].
  by rewrite E0 Z.add_0_r Z.mul_comm Z.mod_mul; lia.
rewrite (Z.mod_small (m - r)); [lia|].
have -> : (m - r + Z.of_nat len = (Z.of_nat len / m + 1) * m)%Z by lia.
by rewrite Z.mod_mul; lia.
Qed.



(** The number a string denotes in base 2, from an accumulator. *)
Lemma binValue_cat (a g : jsstring) :
  binValue (a ++ g) = (binValue a * 2 ^ Z.of_nat (size g) + binValue g)%Z.
Proof.
elim/last_ind: g => [|g c IH].
  by rewrite cats0 [size _]/= Z.pow_0_r -[binValue [::]]/(0%Z); lia.
rewrite -rcons_cat !binValue_rcons IH size_rcons Nat2Z.inj_succ Z.pow_succ_r; [lia|].
by lia.
Qed.

Lemma binValue_zeros (k : nat) : binValue (zeros k) = 0%Z.
Proof.
by elim: k.
Qed.

(** The number a hexadecimal string denotes. *)
Definition hexNumber (s : jsstring) : Z :=
  foldl (fun acc c => 16 * acc + hexValue c)%Z 0%Z s.

Lemma hexBits_value (s : jsstring) :
  all isHexChar s -> binValue (flatten [seq hexNibble c | c <- s]) = hexNumber s.
Proof.
elim/last_ind: s => [|s c IH] //.
rewrite all_rcons => /andP [Hc Hs].
have [/andP [_ /eqP Sc] Ec _ _ _] := hexChar_facts Hc.
have -> : hexNumber (rcons s c) = (16 * hexNumber s + hexValue c)%Z.
  by rewrite /hexNumber -cats1 foldl_cat.
rewrite map_rcons flatten_rcons binValue_cat IH // Sc Ec.
by rewrite -[(2 ^ Z.of_nat 4)%Z]/(16%Z); lia.
Qed.

(** [hexadecimalToBinary] throws exactly on a string that holds a character
    other than a hexadecimal digit; otherwise it returns four binary digits
    for each digit, and the binary string denotes the number the
    hexadecimal string denotes. *)
Theorem hexadecimalToBinary_value (s : jsstring) :
  match hexadecimalToBinary s with
  | Ok bits =>
      [/\ all isHexChar s, size bits = (4 * size s)%N, all isBin bits
        & binValue bits = hexNumber s]
  | Throw e => e = InvalidHexCharacter /\ ~~ all isHexChar s
  | Diverge => False
  end.
Proof.
rewrite hexadecimalToBinaryE; case Hs: (all isHexChar s) => //.
split=> //; [exact: size_hexBits | | exact: hexBits_value].
apply/allP => c /flattenP [g /mapP [h _ ->]].
by move/(allP (bitsOf_bin 4 (hexValue h))).
Qed.

(** [binaryToHexadecimal] on a binary string returns hexadecimal digits
    that [hexadecimalToBinary] turns back into the string, behind the fewer
    than four zeros that make its length a multiple of four. *)
Theorem binaryToHexadecimal_inverse (b : jsstring) :
  all isBin b ->
  exists h k,
    [/\ binaryToHexadecimal b = Ok h, all isHexChar h, (k < 4)%N,
        (4 * size h = k + size b)%N
      & hexadecimalToBinary h = Ok (zeros k ++ b)].
Proof.
move=> Hb.
have [q Hq] := padCount_mult4 (size b).
set k := padCount (size b) 4 in Hq; set p := zeros k ++ b.
have Hp : all isBin p by rewrite all_cat Hb andbT all_nseq orbT.
have Sp : size p = (4 * q)%N by rewrite size_cat size_nseq.
have [ns E Hns] := nibbles_split Hp Sp.
have Epad : padCount (size p) 4 = 0%N.
  rewrite /padCount Sp; have -> : Z.of_nat (4 * q) = (Z.of_nat q * 4)%Z by nat_lia.
  by rewrite Z.mod_mul.
have EQ : binaryToHexadecimal b = binaryToHexadecimal p.
  by rewrite /binaryToHexadecimal !padLeftE // Epad.
have Eh : binaryToHexadecimal p = Ok (payloadHex p).
  by have [] := payloadHexE Hp.
have Hh : all isHexChar (payloadHex p) by have [] := payloadHexE Hp.
exists (payloadHex p), k; split=> //.
- by rewrite EQ.
- have H4 : (0 < 4)%Z by [].
  by have [Hk _] := padCount_lt (size b) H4; rewrite -/k in Hk; nat_lia.
- rewrite E payloadHex_nibbles // size_map.
  by have := size_flatten_nibbles Hns; rewrite -E Sp Hq => <-.
- by rewrite hexadecimalToBinaryE Hh E hexNibbles_payloadHex // -E.
Qed.

Lemma binaryToHexadecimal_inverse_witness :
  exists h k,
    [/\ binaryToHexadecimal (str "1010011011") = Ok h, all isHexChar h, (k < 4)%N,
        (4 * size h = k + size (str "1010011011"))%N
      & hexadecimalToBinary h = Ok (zeros k ++ str "1010011011")].
Proof. exact: (@binaryToHexadecimal_inverse (str "1010011011")). Defined.

(** The number a list of chunks denotes in base 256, the first chunk being
    the least significant. *)
Definition chunksValue (vs : seq Z) : Z := foldr (fun v acc => v + 256 * acc)%Z 0%Z vs.

Lemma chunksValue_bits (vs : seq Z) :
  all isByte vs ->
  binValue (flatten (rev [seq byteBits v | v <- vs])) = chunksValue vs.
Proof.
elim: vs => [|v vs IH] //; rewrite [all _ _]/= => /andP [Hv Hvs].
have -> : chunksValue (v :: vs) = (v + 256 * chunksValue vs)%Z by [].
rewrite map_cons rev_cons flatten_rcons binValue_cat IH //.
rewrite size_byteBits binValue_byteBits // -[(2 ^ Z.of_nat 8)%Z]/(256%Z).
by lia.
Qed.

(** [splitNumStringToIntArray] without a pad length, on a non-empty binary
    string: one byte for every eight digits, counted from the end of the
    string, the first one the least significant; together they denote in
    base 256 the number the string denotes in base 2. *)
Theorem splitNumStringToIntArray_value (b : jsstring) :
  all isBin b -> b != [::] ->
  exists2 vs,
    splitNumStringToIntArray b None = Ok [seq Some v | v <- vs]
    & [/\ all isByte vs, size vs = (size b + 7) %/ 8
        & chunksValue vs = binValue b].
Proof.
move=> Hb Hne; have [vs [E Hvs Hsize Ef]] := splitNum_chunks Hb Hne.
exists vs => //; split=> //; first exact: chunkCountP.
by rewrite -chunksValue_bits // Ef binValue_cat binValue_zeros.
Qed.

Lemma splitNumStringToIntArray_value_witness :
  exists2 vs,
    splitNumStringToIntArray (str "1100000001") None = Ok [seq Some v | v <- vs]
    & [/\ all isByte vs, size vs = (size (str "1100000001") + 7) %/ 8
        & chunksValue vs = binValue (str "1100000001")].
Proof. exact: (@splitNumStringToIntArray_value (str "1100000001")). Defined.

(** ** Random coefficients and repeated shares *)

(** With a fair entropy source [getRandomBinaryString(8)] returns the eight
    binary digits of a byte that is not zero: an all-zero draw is never
    returned. *)
Theorem getRandomBinaryString_nonzero fuel rnd pos :
  fairEntropy fuel rnd ->
  exists v pos',
    [/\ getRandomBinaryString fuel fieldBits rnd pos = Ok (byteBits v, pos'),
        (1 <= v <= 255)%Z
      & parseInt (byteBits v) 2 = Some v].
Proof.
move=> Hfair.
have [[bits pos'] E /= [v Ev Hv]] :=
  okOrStarved_fair (getRandomBinaryString_spec fuel rnd pos) Hfair.
exists v, pos'; split; first by rewrite E Ev.
  exact/isShareIdP.
have Hne : byteBits v != [::] by rewrite -size_eq0 size_byteBits.
by rewrite (parseInt_bin (byteBits_bin v) Hne) binValue_byteBits ?isShareId_byte.
Qed.

Lemma getRandomBinaryString_nonzero_witness :
  exists v pos',
    [/\ getRandomBinaryString 1 fieldBits (fun=> x01) 0 = Ok (byteBits v, pos'),
        (1 <= v <= 255)%Z
      & parseInt (byteBits v) 2 = Some v].
Proof.
apply: (@getRandomBinaryString_nonzero 1 (fun=> x01) 0).
by move=> pos; exists 0%N.
Defined.

Lemma deriveNext_ids xy shares j :
  (j \in xy.1) || (j \in [seq shareIdOf share | share <- shares]) ->
  j \in (foldl deriveNext xy shares).1.
Proof.
elim: shares xy => [|share shares IH] xy; first by rewrite orbF.
rewrite [foldl _ _ _]/= map_cons inE orbA => H; apply: IH; apply/orP.
case/orP: H => [H|H]; [left|by right].
rewrite /deriveNext; case: ifP => [Hin|_] /=.
  by case/orP: H => // /eqP ->.
by rewrite mem_rcons inE orbC.
Qed.

(** A well-formed share whose id has been met earlier in the list is
    ignored, whatever its payload: [deriveSecret] returns what it returns
    without it. *)
Theorem deriveSecret_repeated_id (before after : seq jsstring) (share : jsstring) :
  wellFormedShare share ->
  shareIdOf share \in [seq shareIdOf s | s <- before] ->
  deriveSecret (before ++ share :: after) = deriveSecret (before ++ after).
Proof.
move=> Hw Hid; rewrite /deriveSecret !deriveLoopE !all_cat [all _ (_ :: _)]/= Hw /=.
case: (all wellFormedShare before && all wellFormedShare after) => //.
rewrite !foldl_cat [foldl _ _ (_ :: _)]/=.
have -> // : deriveNext (foldl deriveNext ([::], [::]) before) share
             = foldl deriveNext ([::], [::]) before.
by rewrite /deriveNext deriveNext_ids // Hid orbT.
Qed.

Lemma deriveSecret_repeated_id_witness :
  deriveSecret ([:: str "01ab"; str "02cd"] ++ str "01ffff" :: [:: str "03ee"])
  = deriveSecret ([:: str "01ab"; str "02cd"] ++ [:: str "03ee"]).
Proof.
exact: (@deriveSecret_repeated_id [:: str "01ab"; str "02cd"] [:: str "03ee"]
          (str "01ffff")).
Defined.

